(** * motif-mark: annotation engine and layout arithmetic

    A shallow embedding of [motif-mark-oop.py]: the ambiguity table, the
    [Motif] and [Transcript] classes with [find_motifs], and the integer
    layout computed by [MotifsImage.__init__] and [add_ticks].

    Conventions.
    - Python [str] is [string]; the development covers ASCII text, on which
      [str.upper] maps a-z to A-Z and leaves every other character alone.
    - Python [int] is [nat] for lengths and positions and [Z] for pixels.
    - A Python [dict] keyed by objects is an association list in insertion
      order; a [dict] keyed by [int] or [str] is a [gmap].
    - A raised exception is the [Raise] branch of [result]. *)

From Stdlib Require Import Ascii String ZArith QArith DecimalString Sorted.
From stdpp Require Import base gmap strings list fin_maps.

Local Open Scope string_scope.
Local Open Scope nat_scope.

(** ** Python primitives *)

Inductive exn : Type :=
| IndexError      (* list index out of range *)
| ValueError      (* max() of an empty sequence *)
| ReError         (* re.error, or a pattern outside the modelled fragment *)
| InvalidMotifCharacter  (* named by the specification only *)
| TooManyMotifs.         (* named by the specification only *)

Inductive result (A : Type) : Type :=
| Ok (a : A)
| Raise (e : exn).
Arguments Ok {A} a.
Arguments Raise {A} e.

Definition bind {A B} (r : result A) (k : A → result B) : result B :=
  match r with
  | Ok a => k a
  | Raise e => Raise e
  end.

Notation "x <- r ;; k" := (bind r (fun x => k))
  (at level 100, r at next level, right associativity).

Definition is_lower (c : ascii) : bool :=
  (97 <=? nat_of_ascii c) && (nat_of_ascii c <=? 122).

Definition is_upper (c : ascii) : bool :=
  (65 <=? nat_of_ascii c) && (nat_of_ascii c <=? 90).

Definition upper_char (c : ascii) : ascii :=
  if is_lower c then ascii_of_nat (nat_of_ascii c - 32) else c.

(** [str.upper()] *)
Fixpoint upper (s : string) : string :=
  match s with
  | EmptyString => EmptyString
  | String c s' => String (upper_char c) (upper s')
  end.

(** [range(a, b)] *)
Definition range (a b : nat) : list nat := seq a (b - a).

(** [str(n)] for an integer *)
Definition py_str (z : Z) : string := NilZero.string_of_int (Z.to_int z).

(** [round(n / d)] for integers [n >= 0], [d > 0]: the quotient is rounded
    to the nearest integer, ties going to the even one.  The float quotient
    [n / d] is exact for the divisors 2 and 4 used here as long as [n] is
    below 2^53. *)
Definition py_round_div (n d : Z) : Z :=
  let q := (n / d)%Z in
  let r := (n mod d)%Z in
  if (2 * r <? d)%Z then q
  else if (d <? 2 * r)%Z then (q + 1)%Z
  else if Z.even q then q else (q + 1)%Z.

(** ** The fragment of Python's [re] that the program uses

    Patterns are sequences of one-character atoms: a literal character or a
    bracket class of characters and ranges, optionally wrapped in a
    zero-width lookahead [(?=...)].  Anything else is refused by
    [re_compile]. *)

Module Re.

Inductive class_item : Type :=
| CChar (c : ascii)
| CRange (lo hi : ascii).

Inductive atom : Type :=
| Lit (c : ascii)
| Class (items : list class_item).

Inductive regex : Type :=
| Plain (atoms : list atom)
| Lookahead (atoms : list atom).

(** Characters with a special meaning outside a bracket class. *)
Definition meta_chars : list ascii :=
  ["."; "^"; "$"; "*"; "+"; "?"; "{"; "}"; "["; "]"; "\"; "|"; "("; ")"]%char.

Definition is_meta (c : ascii) : bool :=
  existsb (Ascii.eqb c) meta_chars.

(** Characters refused inside a bracket class (escapes, negation, nested
    brackets, and a hyphen that is not between two range ends). *)
Definition class_special (c : ascii) : bool :=
  existsb (Ascii.eqb c) ["\"; "^"; "["; "-"; "]"]%char.

(** [parse s grp cls]: [grp] says whether a closing parenthesis of a
    lookahead group is awaited; [cls] holds the items of the bracket class
    being read, most recent first. *)
Fixpoint parse (s : string) (grp : bool) (cls : option (list class_item))
  : option (list atom) :=
  match cls with
  | None =>
      match s with
      | EmptyString => if grp then None else Some []
      | String c s' =>
          if Ascii.eqb c "["%char then parse s' grp (Some [])
          else if Ascii.eqb c ")"%char then
            match grp, s' with
            | true, EmptyString => Some []
            | _, _ => None
            end
          else if is_meta c then None
          else cons (Lit c) <$> parse s' grp None
      end
  | Some acc =>
      match s with
      | EmptyString => None
      | String c s' =>
          if Ascii.eqb c "]"%char then
            match acc with
            | [] => None
            | _ => cons (Class (rev acc)) <$> parse s' grp None
            end
          else if class_special c then None
          else
            match s' with
            | String d (String e s'') =>
                if Ascii.eqb d "-"%char then
                  if class_special e then None
                  else if nat_of_ascii c <=? nat_of_ascii e
                  then parse s'' grp (Some (CRange c e :: acc))
                  else None
                else parse s' grp (Some (CChar c :: acc))
            | _ => parse s' grp (Some (CChar c :: acc))
            end
      end
  end.

(** [re.compile] *)
Definition re_compile (pattern : string) : option regex :=
  match pattern with
  | String "(" (String "?" (String "=" body)) => Lookahead <$> parse body true None
  | _ => Plain <$> parse pattern false None
  end.

Definition item_matches (c : ascii) (it : class_item) : bool :=
  match it with
  | CChar x => Ascii.eqb x c
  | CRange lo hi => (nat_of_ascii lo <=? nat_of_ascii c) && (nat_of_ascii c <=? nat_of_ascii hi)
  end.

Definition atom_matches (a : atom) (c : ascii) : bool :=
  match a with
  | Lit x => Ascii.eqb x c
  | Class items => existsb (item_matches c) items
  end.

(** The atoms match a prefix of [s]; the result is the number of
    characters consumed. *)
Fixpoint match_atoms (atoms : list atom) (s : string) : option nat :=
  match atoms with
  | [] => Some 0
  | a :: atoms' =>
      match s with
      | EmptyString => None
      | String c s' =>
          if atom_matches a c then S <$> match_atoms atoms' s' else None
      end
  end.

(** A match anchored at the head of [s]; the result is its width. *)
Definition match_here (r : regex) (s : string) : option nat :=
  match r with
  | Plain atoms => match_atoms atoms s
  | Lookahead atoms => (fun _ => 0) <$> match_atoms atoms s
  end.

(** A match object: [start()] and [end()]. *)
Record match_obj : Type := { m_start : nat; m_end : nat }.

(** The scan of [finditer]: [s] is the text from offset [pos] on, [skip]
    counts the characters still covered by the previous match.  After a
    match of width [w > 0] the scan resumes at its end; after an empty match
    it resumes one character further.  The end of the text is tried too. *)
Fixpoint scan (r : regex) (s : string) (pos skip : nat) : list match_obj :=
  match skip with
  | S k =>
      match s with
      | EmptyString => []
      | String _ s' => scan r s' (S pos) k
      end
  | O =>
      match match_here r s with
      | Some w =>
          {| m_start := pos; m_end := pos + w |} ::
          match s with
          | EmptyString => []
          | String _ s' => scan r s' (S pos) (pred w)
          end
      | None =>
          match s with
          | EmptyString => []
          | String _ s' => scan r s' (S pos) 0
          end
      end
  end.

(** [re.finditer(pattern, string)] on a compiled pattern *)
Definition finditer (r : regex) (s : string) : list match_obj := scan r s 0 0.

End Re.

(** ** Nucleotide dictionary *)

Definition ambig_nucleotides : list (ascii * string) :=
  [ ("N"%char, "[NAGCTU]");
    ("R"%char, "[RAG]");
    ("Y"%char, "[YTCU]");
    ("K"%char, "[KGTU]");
    ("M"%char, "[MAC]");
    ("S"%char, "[SGC]");
    ("W"%char, "[WATU]");
    ("B"%char, "[BCGTU]");
    ("D"%char, "[DAGTU]");
    ("H"%char, "[HACG]");
    ("V"%char, "[VACG]");
    ("U"%char, "[TU]");
    ("T"%char, "[TU]") ].

(** [d[k]] when [k in d.keys()], on a dictionary literal *)
Fixpoint dict_get (k : ascii) (d : list (ascii * string)) : option string :=
  match d with
  | [] => None
  | (k', v) :: d' => if Ascii.eqb k k' then Some v else dict_get k d'
  end.

(** ** class Motif *)

Module Motif.

(** [oid] stands for the identity of the Python object: [Motif] defines
    neither [__eq__] nor [__hash__], so a motif used as a dictionary key or
    compared with [==] is compared by identity. *)
Record t : Type := {
  oid : nat;
  seq : string;
  length : nat;
  re_seq : string
}.

(** The loop of [modular_motif]: [new_motif] grows by one unit per
    character of [self.seq]. *)
Fixpoint modular_motif_loop (seq : string) (new_motif : string) : string :=
  match seq with
  | EmptyString => new_motif
  | String c rest =>
      match dict_get c ambig_nucleotides with
      | Some cls => modular_motif_loop rest (new_motif ++ cls)
      | None => modular_motif_loop rest (new_motif ++ String c EmptyString)
      end
  end.

Definition modular_motif (seq : string) : string :=
  modular_motif_loop seq "".

(** [Motif(motif_seq)], allocated at identity [id] *)
Definition init (id : nat) (motif_seq : string) : t :=
  {| oid := id;
     seq := motif_seq;
     length := String.length motif_seq;
     re_seq := modular_motif motif_seq |}.


End Motif.

(** [parse_motif_txt] on the lines of the motif file, already stripped:
    blank lines are skipped, every other line is upper-cased and becomes a
    fresh [Motif] object. *)
Fixpoint parse_motif_txt (next_id : nat) (lines : list string) : list Motif.t :=
  match lines with
  | [] => []
  | line :: rest =>
      if String.eqb line "" then parse_motif_txt next_id rest
      else Motif.init next_id (upper line) :: parse_motif_txt (S next_id) rest
  end.

(** ** class Transcript *)

(** A Python value that can sit in a list searched with [in]: the program
    only ever mixes motif labels (strings) and motif objects. *)
Inductive pyobj : Type :=
| PStr (s : string)
| PMotif (m : Motif.t).

(** [a == b]: strings by content, motif objects by identity; a motif never
    equals a string. *)
Definition py_eq (a b : pyobj) : bool :=
  match a, b with
  | PStr x, PStr y => String.eqb x y
  | PMotif x, PMotif y => Motif.oid x =? Motif.oid y
  | _, _ => false
  end.

(** [a in l] *)
Definition py_in (a : pyobj) (l : list pyobj) : bool := existsb (py_eq a) l.

Module Transcript.

Record t : Type := {
  readname : string;
  sequence : string;
  exons : list nat;
  length : nat
}.

(** The compiled form of the pattern [r'[A-Z]']. *)
Definition exon_re : Re.regex := Re.Plain [Re.Class [Re.CRange "A" "Z"]].

Definition init (readname sequence : string) : t :=
  {| readname := readname;
     sequence := sequence;
     exons := map (fun m => Re.m_start m + 1) (Re.finditer exon_re sequence);
     length := String.length sequence |}.

(** [self.motif_locations]: a dictionary keyed by motif objects, in
    insertion order. *)
Definition locations : Type := list (Motif.t * list nat).

(** [d[k] = v]: an existing key keeps its place. *)
Fixpoint dict_set (d : locations) (k : Motif.t) (v : list nat) : locations :=
  match d with
  | [] => [(k, v)]
  | (k', v') :: d' =>
      if Motif.oid k' =? Motif.oid k then (k', v) :: d'
      else (k', v') :: dict_set d' k v
  end.

(** The 1-based start of every match of the lookahead pattern built from
    [motif.re_seq] in the upper-cased sequence. *)
Definition match_starts (motif : Motif.t) (sequence : string) : result (list nat) :=
  match Re.re_compile ("(?=" ++ Motif.re_seq motif ++ ")") with
  | None => Raise ReError
  | Some r => Ok (map (fun m => Re.m_start m + 1) (Re.finditer r (upper sequence)))
  end.

(** The value stored for one motif: the ranges of all its matches,
    flattened. *)
Definition motif_positions (motif : Motif.t) (sequence : string) : result (list nat) :=
  starts <- match_starts motif sequence ;;
  Ok (concat (map (fun s => range s (s + Motif.length motif)) starts)).

(** First loop of [find_motifs]. *)
Fixpoint locate (sequence : string) (motifs_list : list Motif.t) (d : locations)
  : result locations :=
  match motifs_list with
  | [] => Ok d
  | motif :: rest =>
      ps <- motif_positions motif sequence ;;
      locate sequence rest (dict_set d motif ps)
  end.

(** Inner loop of the second half: the labels collected at one position. *)
Definition labels_step (position : nat) (labels : list string)
    (entry : Motif.t * list nat) : list string :=
  let (motif, locs) := entry in
  if existsb (Nat.eqb position) locs && negb (py_in (PMotif motif) (PStr <$> labels))
  then labels ++ [Motif.seq motif]
  else labels.

Definition labels_at (position : nat) (d : locations) : list string :=
  fold_left (labels_step position) d [].

(** Outer loop of the second half. *)
Definition build_index (n : nat) (d : locations) : gmap nat (list string) :=
  fold_left (fun idx position => <[position := labels_at position d]> idx)
            (range 1 (n + 1)) ∅.

(** The two attributes that [find_motifs] sets on the transcript. *)
Record annotation : Type := {
  motif_locations : locations;
  position_motif : gmap nat (list string)
}.

Definition find_motifs (self : t) (motifs_list : list Motif.t) : result annotation :=
  d <- locate (sequence self) motifs_list [] ;;
  Ok {| motif_locations := d;
        position_motif := build_index (String.length (sequence self)) d |}.

End Transcript.

(** ** class MotifsImage *)

(** The calls issued on the drawing context, in order. *)
Inductive draw : Type :=
| set_line_width (w : Z)
| move_to (x y : Z)
| line_to (x y : Z)
| set_source_rgba (r g b : Q)
| stroke.

Module MotifsImage.

Definition color : Type := Q * Q * Q.

Record t : Type := {
  name : string;
  transcripts : list Transcript.t;
  motifs : list Motif.t;
  scale : Z;
  num_images : Z;
  title_len : Z;
  longest_len : Z;
  foot_len : Z;
  spacing : Z;
  margins : Z;
  width : Z;
  height : Z;
  tick_spacing : Z;
  ticklabels : list string;
  tickoffset : list Z;
  colors : list color;
  color_pairs : gmap string color
}.

(** [max(l, key=lambda x: x.length)]: the first element of greatest
    length; [ValueError] on an empty list. *)
Fixpoint max_from (best : Transcript.t) (l : list Transcript.t) : Transcript.t :=
  match l with
  | [] => best
  | x :: l' =>
      if Transcript.length best <? Transcript.length x then max_from x l'
      else max_from best l'
  end.

Definition py_max (l : list Transcript.t) : result Transcript.t :=
  match l with
  | [] => Raise ValueError
  | x :: l' => Ok (max_from x l')
  end.

Definition palette : list color :=
  [ (0, 1#2, 0);        (* Green *)
    (1, 0, 0);          (* Red *)
    (0, 0, 1);          (* Blue *)
    (1#2, 0, 1#2);      (* Purple *)
    (0, 3#4, 1);        (* Teal *)
    (1, 0, 1);          (* Pink *)
    (3#5, 1#5, 2#5);    (* Maroon *)
    (1, 2#5, 0);        (* Orange *)
    (1, 1, 0);          (* Yellow *)
    (1, 0, 1#2)         (* Salmon *)
  ]%Q.

(** The loop [for co_count, motif in enumerate(motifs_list)]. *)
Fixpoint assign_colors (colors : list color) (co_count : nat)
    (motifs_list : list Motif.t) (color_pairs : gmap string color)
  : result (gmap string color) :=
  match motifs_list with
  | [] => Ok color_pairs
  | motif :: rest =>
      match colors !! co_count with
      | None => Raise IndexError
      | Some c =>
          assign_colors colors (S co_count) rest (<[Motif.seq motif := c]> color_pairs)
      end
  end.

Local Open Scope Z_scope.

Definition init (name : string) (transcripts_list : list Transcript.t)
    (motifs_list : list Motif.t) : result t :=
  let scale := 2 in
  let num_images := Z.of_nat (List.length transcripts_list) in
  let title_len := 25 + 20 * Z.of_nat (List.length motifs_list) in
  longest <- py_max transcripts_list ;;
  let longest_len := Z.of_nat (Transcript.length longest) in
  let foot_len := 120 in
  let spacing := 200 in
  let margins := 50 in
  let width := margins * 2 + longest_len * scale in
  let height := num_images * spacing + title_len + foot_len in
  let tick_spacing := (longest_len * scale) / 4 in
  let ticklabels :=
    [ "0"%string;
      py_str (py_round_div longest_len 4);
      py_str (py_round_div longest_len 2);
      py_str (py_round_div (longest_len * 3) 4);
      py_str longest_len ] in
  let tickoffset := [0; 12; 12; 12; 15] in
  let colors := palette in
  color_pairs <- assign_colors colors 0 motifs_list ∅ ;;
  Ok {| name := name;
        transcripts := transcripts_list;
        motifs := motifs_list;
        scale := scale;
        num_images := num_images;
        title_len := title_len;
        longest_len := longest_len;
        foot_len := foot_len;
        spacing := spacing;
        margins := margins;
        width := width;
        height := height;
        tick_spacing := tick_spacing;
        ticklabels := ticklabels;
        tickoffset := tickoffset;
        colors := colors;
        color_pairs := color_pairs |}.

(** One iteration of the loop of [add_ticks]. *)
Definition tick (self : t) (i : nat) : list draw :=
  [ set_line_width 3;
    move_to (margins self + Z.of_nat i * tick_spacing self) (height self - 75);
    line_to (margins self + Z.of_nat i * tick_spacing self) (height self - 100);
    set_source_rgba 0 0 0;
    stroke ].

Definition add_ticks (self : t) : list draw :=
  concat (map (tick self) (range 0 (List.length (ticklabels self)))).

End MotifsImage.

(** ** Notions used to state the properties *)

(** [s[n:]] *)
Fixpoint drop_str (n : nat) (s : string) : string :=
  match n, s with
  | O, _ => s
  | S n', EmptyString => EmptyString
  | S n', String _ s' => drop_str n' s'
  end.

(** The atoms match the text at 0-based offset [i]. *)
Definition matches_at (atoms : list Re.atom) (text : string) (i : nat) : bool :=
  match Re.match_atoms atoms (drop_str i text) with
  | Some _ => true
  | None => false
  end.

(** One character of a motif as emitted by [modular_motif]. *)
Definition unit_of (c : ascii) : string :=
  match dict_get c ambig_nucleotides with
  | Some cls => cls
  | None => String c EmptyString
  end.

(** ... and the atom that this unit compiles to. *)
Definition unit_atom (c : ascii) : Re.atom :=
  match Re.parse (unit_of c) false None with
  | Some [a] => a
  | _ => Re.Lit c
  end.

Fixpoint string_forallb (f : ascii → bool) (s : string) : bool :=
  match s with
  | EmptyString => true
  | String c s' => f c && string_forallb f s'
  end.

Fixpoint string_mem (c : ascii) (s : string) : bool :=
  match s with
  | EmptyString => false
  | String c' s' => Ascii.eqb c c' || string_mem c s'
  end.

(** A motif free of regular-expression metacharacters. *)
Definition plain (seq : string) : bool :=
  string_forallb (fun c => negb (Re.is_meta c)) seq.

Definition only_ACGT (seq : string) : bool :=
  string_forallb (fun c => string_mem c "ACGT") seq.


(** The raw sequence with every [T] written as the class [[TU]]. *)
Fixpoint expand_T (seq : string) : string :=
  match seq with
  | EmptyString => EmptyString
  | String c rest =>
      if Ascii.eqb c "T" then "[TU]" ++ expand_T rest
      else String c (expand_T rest)
  end.

(** The match pattern of [m] is inside the modelled fragment. *)
Definition compiles (m : Motif.t) : Prop :=
  is_Some (Re.parse (Motif.re_seq m) false None).

(** An occurrence of motif [m] starting at 1-based position [s] of the
    sequence covers position [p]. *)
Definition covers (m : Motif.t) (sequence : string) (p : nat) : Prop :=
  ∃ atoms s,
    Re.parse (Motif.re_seq m) false None = Some atoms ∧
    1 ≤ s ≤ String.length sequence + 1 ∧
    matches_at atoms (upper sequence) (s - 1) = true ∧
    s ≤ p < s + Motif.length m.

(** The greatest length among the transcripts (0 for none). *)
Definition max_length (ts : list Transcript.t) : nat :=
  foldr Nat.max 0 (map Transcript.length ts).

(** Position [p] is among the positions stored for motif [m]. *)
Definition covered_by (m : Motif.t) (sequence : string) (p : nat) : bool :=
  match Transcript.motif_positions m sequence with
  | Ok ps => existsb (Nat.eqb p) ps
  | Raise _ => false
  end.

(** A one-letter motif [code] is found on the one-base sequence [base]. *)
Definition motif_hits (code base : ascii) : bool :=
  match Transcript.find_motifs (Transcript.init "" (String base ""))
                               [Motif.init 0 (String code "")] with
  | Ok ann =>
      match Transcript.position_motif ann !! 1 with
      | Some (_ :: _) => true
      | _ => false
      end
  | Raise _ => false
  end.

(** The IUPAC nucleotide code that the specification refers to: the bases
    each letter of the table stands for (T and U standing for themselves). *)
Definition iupac_nucleotides : list (ascii * string) :=
  [ ("N"%char, "ACGT"); ("R"%char, "AG"); ("Y"%char, "CT"); ("K"%char, "GT");
    ("M"%char, "AC"); ("S"%char, "CG"); ("W"%char, "AT"); ("B"%char, "CGT");
    ("D"%char, "AGT"); ("H"%char, "ACT"); ("V"%char, "ACG");
    ("U"%char, "U"); ("T"%char, "T") ].

(** The x coordinates at which a drawing starts a stroke. *)
Fixpoint move_xs (ds : list draw) : list Z :=
  match ds with
  | [] => []
  | move_to x _ :: ds' => x :: move_xs ds'
  | _ :: ds' => move_xs ds'
  end.

(** Eleven motif lines, one more than the palette holds. *)
Definition eleven_lines : list string :=
  ["A"; "C"; "G"; "AA"; "AC"; "AG"; "CA"; "CC"; "CG"; "GA"; "GC"].

(** ** Reading the input files *)

(** [str.isspace] on an ASCII character: tab to carriage return, the four
    separators 28-31 and the space. *)
Definition is_space (c : ascii) : bool :=
  ((9 <=? nat_of_ascii c) && (nat_of_ascii c <=? 13))
  || ((28 <=? nat_of_ascii c) && (nat_of_ascii c <=? 32)).

(** [str.lstrip()] *)
Fixpoint lstrip (s : string) : string :=
  match s with
  | EmptyString => EmptyString
  | String c s' => if is_space c then lstrip s' else s
  end.

(** [str.rstrip()] *)
Fixpoint rstrip (s : string) : string :=
  match s with
  | EmptyString => EmptyString
  | String c s' =>
      match rstrip s' with
      | EmptyString => if is_space c then EmptyString else String c EmptyString
      | r => String c r
      end
  end.

(** [str.strip()] *)
Definition strip (s : string) : string := rstrip (lstrip s).

(** [str.split()]: the maximal runs of characters that are not
    whitespace. *)
Fixpoint split (s : string) : list string :=
  match s with
  | EmptyString => []
  | String c s' =>
      if is_space c then split s'
      else
        match s' with
        | EmptyString => [String c EmptyString]
        | String d _ =>
            if is_space d then String c EmptyString :: split s'
            else
              match split s' with
              | tok :: toks => String c tok :: toks
              | [] => [String c EmptyString]
              end
        end
  end.

(** One iteration of the loop of [parse_fasta]; the state is
    [(transcripts_list, readname, seq)].  [line.split()[0]] raises
    [IndexError] on an empty list. *)
Definition fasta_step (st : list Transcript.t * string * string) (line : string)
  : result (list Transcript.t * string * string) :=
  let '(transcripts_list, readname, sq) := st in
  let line := strip line in
  if String.prefix ">" line && String.eqb readname "" then
    match split line with
    | tok :: _ => Ok (transcripts_list, drop_str 1 tok, sq)
    | [] => Raise IndexError
    end
  else if String.prefix ">" line then
    match split line with
    | tok :: _ =>
        Ok ((transcripts_list ++ [Transcript.init readname sq])%list,
            drop_str 1 tok, EmptyString)
    | [] => Raise IndexError
    end
  else Ok (transcripts_list, readname, sq ++ line).

Fixpoint fasta_loop (lines : list string)
    (st : list Transcript.t * string * string)
  : result (list Transcript.t * string * string) :=
  match lines with
  | [] => Ok st
  | line :: rest => st' <- fasta_step st line ;; fasta_loop rest st'
  end.

(** [parse_fasta] on the lines that iterating over the file yields. *)
Definition parse_fasta (lines : list string) : result (list Transcript.t) :=
  st <- fasta_loop lines ([], EmptyString, EmptyString) ;;
  let '(transcripts_list, readname, sq) := st in
  Ok (transcripts_list ++ [Transcript.init readname sq])%list.

(** [parse_motif_txt] on the raw lines of the motif file: each line is
    stripped first. *)
Definition read_motifs (lines : list string) : list Motif.t :=
  parse_motif_txt 0 (map strip lines).

(** The lines of a FASTA record: the header, made of the name and a
    trailer (empty, or a description that starts with whitespace, line end
    included), then the body lines. *)
Definition fasta_record : Type := string * string * list string.

Definition record_lines (r : fasta_record) : list string :=
  let '(name, trailer, body) := r in
  (String ">" (name ++ trailer)) :: body.

Definition record_transcript (r : fasta_record) : Transcript.t :=
  let '(name, _, body) := r in
  Transcript.init name (fold_right String.append EmptyString (map strip body)).

(** No character of [s] is whitespace. *)
Definition no_space (s : string) : bool :=
  string_forallb (fun c => negb (is_space c)) s.

(** [s] is empty or starts with whitespace. *)
Definition space_led (s : string) : bool :=
  match s with
  | EmptyString => true
  | String c _ => is_space c
  end.

(** A record that [parse_fasta] reads back: a non-empty name without
    whitespace, a trailer that is empty or starts with whitespace, and body
    lines that are not headers. *)
Definition well_formed_record (r : fasta_record) : Prop :=
  let '(name, trailer, body) := r in
  name ≠ EmptyString ∧ no_space name = true ∧ space_led trailer = true ∧
  Forall (fun line => String.prefix ">" (strip line) = false) body.

(** No character of [s] is a lowercase letter. *)
Definition no_lower (s : string) : bool :=
  string_forallb (fun c => negb (is_lower c)) s.

(** ** More of the drawing *)

(** The calls that [draw] does not have. *)
Inductive call : Type :=
| ctx (d : draw)
| set_source_rgb (r g b : Q).

Fixpoint seqlines_loop (self : MotifsImage.t) (i : nat) (ts : list Transcript.t)
  : list draw :=
  match ts with
  | [] => []
  | t :: ts' =>
      [ move_to (MotifsImage.margins self)
                (MotifsImage.title_len self + 150 + MotifsImage.spacing self * Z.of_nat i);
        line_to (MotifsImage.scale self * Z.of_nat (Transcript.length t)
                 + MotifsImage.margins self)
                (MotifsImage.title_len self + 150 + MotifsImage.spacing self * Z.of_nat i);
        stroke ]%Z
      ++ seqlines_loop self (S i) ts'
  end%list.

(** [MotifsImage.add_seqlines] *)
Definition add_seqlines (self : MotifsImage.t) : list draw :=
  set_line_width 5 :: set_source_rgba 0 0 0
  :: seqlines_loop self 0 (MotifsImage.transcripts self).

(** [MotifsImage.add_xaxis] *)
Definition add_xaxis (self : MotifsImage.t) : list draw :=
  [ set_line_width 3;
    move_to (MotifsImage.margins self - 2) (MotifsImage.height self - 75);
    line_to (MotifsImage.width self - MotifsImage.margins self + 2)
            (MotifsImage.height self - 75);
    set_source_rgba 0 0 0;
    stroke ]%Z.

(** The marks of one transcript in [add_exons]. *)
Definition exon_marks (self : MotifsImage.t) (cur_tran : nat) (tran : Transcript.t)
  : list call :=
  concat (map (fun e =>
    [ ctx (move_to (MotifsImage.margins self + MotifsImage.scale self * Z.of_nat e)
                   (MotifsImage.title_len self + 130
                    + MotifsImage.spacing self * Z.of_nat cur_tran));
      ctx (line_to (MotifsImage.margins self + MotifsImage.scale self * Z.of_nat e)
                   (MotifsImage.title_len self + 150
                    + MotifsImage.spacing self * Z.of_nat cur_tran));
      ctx stroke ]%Z) (Transcript.exons tran)).

Fixpoint exons_loop (self : MotifsImage.t) (cur_tran : nat) (ts : list Transcript.t)
  : list call :=
  match ts with
  | [] => []
  | tran :: ts' => exon_marks self cur_tran tran ++ exons_loop self (S cur_tran) ts'
  end%list.

(** [MotifsImage.add_exons] *)
Definition add_exons (self : MotifsImage.t) : list call :=
  ctx (set_line_width 2) :: set_source_rgb 0 0 0
  :: exons_loop self 0 (MotifsImage.transcripts self).

(** The calls made on the context proper. *)
Fixpoint draws (cs : list call) : list draw :=
  match cs with
  | [] => []
  | ctx d :: cs' => d :: draws cs'
  | _ :: cs' => draws cs'
  end.

(** The segments drawn: every [move_to] that a [line_to] follows. *)
Fixpoint strokes (ds : list draw) : list ((Z * Z) * (Z * Z)) :=
  match ds with
  | [] => []
  | d :: ds' =>
      match d, ds' with
      | move_to x y, line_to x' y' :: _ => ((x, y), (x', y')) :: strokes ds'
      | _, _ => strokes ds'
      end
  end.

(** ** Position-wise reading of a motif *)

(** The letters between the brackets of a table entry. *)
Definition class_letters (cls : string) : string :=
  String.substring 1 (String.length cls - 2) cls.

(** The sequence letters that a motif character accepts: those listed for
    it in the table, or itself when it is not a key. *)
Definition allowed (c : ascii) : string :=
  match dict_get c ambig_nucleotides with
  | Some cls => class_letters cls
  | None => String c EmptyString
  end.

(** The motif fits the head of the text, character by character. *)
Fixpoint fits (motif_seq text : string) : bool :=
  match motif_seq with
  | EmptyString => true
  | String c motif_seq' =>
      match text with
      | EmptyString => false
      | String x text' => string_mem x (allowed c) && fits motif_seq' text'
      end
  end.

(** Every T written as U. *)
Fixpoint t_to_u (s : string) : string :=
  match s with
  | EmptyString => EmptyString
  | String c s' => String (if Ascii.eqb c "T" then "U"%char else c) (t_to_u s')
  end.

(** Every character of [s] is an ASCII character (code below 128): on
    such text [str.upper] is the letter-wise map [upper] and keeps the
    length. *)
Definition ascii_only (s : string) : bool :=
  string_forallb (fun c => nat_of_ascii c <? 128) s.

(** Equal identity means the same object. *)
Definition same_objects (ms : list Motif.t) : Prop :=
  ∀ m m', In m ms → In m' ms → Motif.oid m = Motif.oid m' → m = m'.

(** ** Checks of the model on small inputs *)

Example modular_motif_YGCY : Motif.modular_motif "YGCY" = "[YTCU]GC[YTCU]".
Proof. reflexivity. Qed.

Example compile_lookahead_ex :
  Re.re_compile "(?=[YTCU]GC)" =
  Some (Re.Lookahead
          [Re.Class [Re.CChar "Y"; Re.CChar "T"; Re.CChar "C"; Re.CChar "U"];
           Re.Lit "G"; Re.Lit "C"]).
Proof. reflexivity. Qed.

Example compile_exon_re : Re.re_compile "[A-Z]" = Some Transcript.exon_re.
Proof. reflexivity. Qed.

(** Without the lookahead the scan would skip overlapping matches. *)
Example finditer_no_overlap :
  map Re.m_start (Re.finditer (Re.Plain [Re.Lit "A"; Re.Lit "A"]) "AAAA") = [0; 2].
Proof. reflexivity. Qed.

Example py_round_div_ties :
  map (fun n => py_round_div n 4) [2; 6; 10; 5; 7]%Z = [0; 2; 2; 1; 2]%Z.
Proof. reflexivity. Qed.

(** ** Pattern construction *)

Lemma append_cons c (a b : string) : String c a ++ b = String c (a ++ b).
Proof. reflexivity. Qed.

Lemma append_nil (b : string) : "" ++ b = b.
Proof. reflexivity. Qed.

Lemma string_app_assoc (a b c : string) : (a ++ b) ++ c = a ++ (b ++ c).
Proof.
  induction a as [|x a IH]; [reflexivity|].
  now rewrite !append_cons, IH.
Qed.

Lemma string_app_empty_r (a : string) : a ++ "" = a.
Proof.
  induction a as [|x a IH]; [reflexivity|].
  now rewrite append_cons, IH.
Qed.

Lemma modular_motif_loop_step c rest acc :
  Motif.modular_motif_loop (String c rest) acc
  = Motif.modular_motif_loop rest (acc ++ unit_of c).
Proof.
  unfold unit_of. cbn [Motif.modular_motif_loop].
  now destruct (dict_get c ambig_nucleotides).
Qed.

Lemma modular_motif_loop_app seq acc :
  Motif.modular_motif_loop seq acc = acc ++ Motif.modular_motif seq.
Proof.
  unfold Motif.modular_motif.
  revert acc. induction seq as [|c rest IH]; intros acc.
  - cbn [Motif.modular_motif_loop]. now rewrite string_app_empty_r.
  - rewrite !modular_motif_loop_step, append_nil.
    rewrite (IH (acc ++ unit_of c)), (IH (unit_of c)). apply string_app_assoc.
Qed.

Lemma modular_motif_cons c rest :
  Motif.modular_motif (String c rest) = unit_of c ++ Motif.modular_motif rest.
Proof.
  unfold Motif.modular_motif at 1.
  now rewrite modular_motif_loop_step, append_nil, modular_motif_loop_app.
Qed.


Lemma string_mem_ACGT c :
  string_mem c "ACGT" = true →
  c = "A"%char ∨ c = "C"%char ∨ c = "G"%char ∨ c = "T"%char.
Proof.
  simpl. rewrite !orb_true_iff, !Ascii.eqb_eq. intuition discriminate.
Qed.

Lemma unit_of_ACGT c :
  string_mem c "ACGT" = true →
  unit_of c = if Ascii.eqb c "T" then "[TU]" else String c "".
Proof.
  intros H. destruct (string_mem_ACGT c H) as [->|[->|[->| ->]]]; reflexivity.
Qed.

Lemma modular_motif_ACGT seq :
  only_ACGT seq = true → Motif.modular_motif seq = expand_T seq.
Proof.
  induction seq as [|c rest IH]; [reflexivity|].
  simpl. intros [Hc Hrest]%andb_true_iff.
  rewrite modular_motif_cons, (unit_of_ACGT c Hc), (IH Hrest).
  now destruct (Ascii.eqb c "T").
Qed.

Lemma expand_T_length seq :
  String.length seq ≤ String.length (expand_T seq).
Proof.
  induction seq as [|c rest IH]; simpl; [lia|].
  destruct (Ascii.eqb c "T"); rewrite ?append_cons, ?append_nil; simpl; lia.
Qed.

Lemma expand_T_fixed seq :
  expand_T seq = seq ↔ string_mem "T" seq = false.
Proof.
  induction seq as [|c rest IH]; [simpl; tauto|].
  cbn [expand_T string_mem].
  rewrite (Ascii.eqb_sym "T" c).
  destruct (Ascii.eqb c "T") eqn:E; cbn [orb].
  - split; [|discriminate]. intros H.
    apply (f_equal String.length) in H.
    rewrite !append_cons, append_nil in H. simpl in H.
    pose proof (expand_T_length rest). lia.
  - rewrite <- IH. split; [now intros [= ->] | now intros ->].
Qed.

(** C4 as written fails on the code: [T] is a key of the table. *)
Lemma C4_counterexample :
  only_ACGT "ACGT" = true ∧
  Motif.re_seq (Motif.init 0 "ACGT") = "ACG[TU]" ∧
  Motif.re_seq (Motif.init 0 "ACGT") ≠ Motif.seq (Motif.init 0 "ACGT").
Proof. split; [reflexivity | split; [reflexivity | discriminate]]. Qed.

(** C4 (amended): for every motif made only of A, C, G and T, the match
    pattern is the raw sequence with A, C and G kept as they are and every T
    written as the class [[TU]]; so it equals the raw sequence exactly when
    the motif contains no T. *)
Theorem C4_match_pattern_of_ACGT (id : nat) (seq : string) :
  only_ACGT seq = true →
  Motif.re_seq (Motif.init id seq) = expand_T seq ∧
  (Motif.re_seq (Motif.init id seq) = Motif.seq (Motif.init id seq)
   ↔ string_mem "T" seq = false).
Proof.
  intros H. simpl. rewrite (modular_motif_ACGT seq H).
  split; [reflexivity | apply expand_T_fixed].
Qed.

Lemma C4_witness :
  Motif.re_seq (Motif.init 0 "GATTACA") = "GA[TU][TU]ACA" ∧
  Motif.re_seq (Motif.init 1 "GACA") = "GACA".
Proof.
  split.
  - exact (proj1 (C4_match_pattern_of_ACGT 0 "GATTACA" eq_refl)).
  - apply (proj2 (C4_match_pattern_of_ACGT 1 "GACA" eq_refl)). reflexivity.
Defined.

(** ** The regular-expression fragment *)

(** Wrapping a pattern in a group, as the lookahead does, compiles the same
    atoms. *)
Lemma parse_group_le n :
  ∀ s cls, String.length s ≤ n →
    Re.parse (s ++ ")") true cls = Re.parse s false cls.
Proof.
  induction n as [|n IH]; intros s cls Hn.
  { destruct s; [|simpl in Hn; lia]. destruct cls; reflexivity. }
  destruct s as [|c s']; [destruct cls; reflexivity|].
  simpl in Hn. rewrite append_cons.
  destruct cls as [acc|]; cbn [Re.parse].
  - destruct (Ascii.eqb c "]").
    { destruct acc; [reflexivity|]. rewrite IH by lia. reflexivity. }
    destruct (Re.class_special c); [reflexivity|].
    destruct s' as [|d [|e s'']].
    + reflexivity.
    + rewrite append_cons, append_nil.
      destruct (Ascii.eqb d "-") eqn:Ed.
      * apply Ascii.eqb_eq in Ed. subst d.
        destruct (nat_of_ascii c <=? nat_of_ascii ")"); reflexivity.
      * simpl in Hn. rewrite <- (IH (String d "")) by (simpl; lia). reflexivity.
    + rewrite !append_cons.
      destruct (Ascii.eqb d "-").
      * destruct (Re.class_special e); [reflexivity|].
        destruct (nat_of_ascii c <=? nat_of_ascii e); [|reflexivity].
        apply IH. simpl in Hn. lia.
      * rewrite <- !append_cons. apply IH. simpl in *. lia.
  - destruct (Ascii.eqb c "["); [apply IH; lia|].
    destruct (Ascii.eqb c ")").
    { destruct s'; reflexivity. }
    destruct (Re.is_meta c); [reflexivity|].
    rewrite IH by lia. reflexivity.
Qed.

Lemma parse_group s cls :
  Re.parse (s ++ ")") true cls = Re.parse s false cls.
Proof. apply (parse_group_le (String.length s)). lia. Qed.

Lemma re_compile_lookahead pat :
  Re.re_compile ("(?=" ++ pat ++ ")") = Re.Lookahead <$> Re.parse pat false None.
Proof.
  rewrite !append_cons, append_nil. cbn [Re.re_compile].
  now rewrite parse_group.
Qed.

Lemma filter_map_comm {A B} (f : B → bool) (g : A → B) (l : list A) :
  List.filter f (map g l) = map g (List.filter (fun x => f (g x)) l).
Proof.
  induction l as [|x l IH]; simpl; [reflexivity|].
  destruct (f (g x)); simpl; now rewrite IH.
Qed.

Lemma filter_ext_seq (f g : nat → bool) (l : list nat) :
  (∀ x, f x = g x) → List.filter f l = List.filter g l.
Proof.
  intros E. induction l as [|x l IH]; simpl; [reflexivity|].
  now rewrite E, IH.
Qed.

Lemma upper_length s : String.length (upper s) = String.length s.
Proof. induction s as [|c s IH]; simpl; [reflexivity | now rewrite IH]. Qed.

(** The scan of a lookahead pattern reports every offset, from 0 to the
    length of the text, at which the atoms match: an empty match never hides
    the next one. *)
Lemma scan_lookahead atoms :
  ∀ s pos,
    map Re.m_start (Re.scan (Re.Lookahead atoms) s pos 0)
    = map (fun i => pos + i)
          (List.filter (matches_at atoms s) (seq 0 (S (String.length s)))).
Proof.
  induction s as [|c s' IH]; intros pos.
  - cbn [Re.scan Re.match_here String.length seq List.filter].
    unfold matches_at. cbn [drop_str].
    destruct (Re.match_atoms atoms ""); simpl; [f_equal; lia | reflexivity].
  - cbn [Re.scan Re.match_here String.length].
    change (seq 0 (S (S (String.length s'))))
      with (0 :: seq 1 (S (String.length s'))).
    assert (Htail :
      map Re.m_start (Re.scan (Re.Lookahead atoms) s' (S pos) 0)
      = map (fun i => pos + i)
          (List.filter (matches_at atoms (String c s'))
             (seq 1 (S (String.length s'))))).
    { rewrite IH, <- seq_shift, filter_map_comm, map_map.
      apply map_ext. intros i. lia. }
    cbn [List.filter]. unfold matches_at at 1. cbn [drop_str].
    destruct (Re.match_atoms atoms (String c s')); simpl.
    + rewrite Htail. f_equal. lia.
    + exact Htail.
Qed.

Lemma match_starts_spec (motif : Motif.t) (text : string) (atoms : list Re.atom) :
  Re.parse (Motif.re_seq motif) false None = Some atoms →
  Transcript.match_starts motif text
  = Ok (List.filter (fun p => matches_at atoms (upper text) (p - 1))
          (seq 1 (S (String.length text)))).
Proof.
  intros Hp. unfold Transcript.match_starts.
  rewrite re_compile_lookahead, Hp. cbn [fmap option_fmap option_map].
  f_equal. unfold Re.finditer.
  rewrite <- (map_map Re.m_start (fun x => x + 1)), scan_lookahead, map_map.
  rewrite upper_length, <- seq_shift, filter_map_comm.
  rewrite (filter_ext_seq (fun x => matches_at atoms (upper text) (S x - 1))
             (matches_at atoms (upper text))).
  - apply map_ext. intros i. lia.
  - intros x. f_equal. lia.
Qed.

(** ** Exon positions *)

Lemma exon_atom_is_upper c :
  Re.atom_matches (Re.Class [Re.CRange "A" "Z"]) c = is_upper c.
Proof.
  unfold Re.atom_matches, Re.item_matches, is_upper, existsb.
  now rewrite orb_false_r.
Qed.

Lemma exon_scan_cons c s pos :
  map (fun m => Re.m_start m + 1) (Re.scan Transcript.exon_re (String c s) pos 0)
  = ((if is_upper c then [pos + 1] else [])
     ++ map (fun m => Re.m_start m + 1) (Re.scan Transcript.exon_re s (S pos) 0))%list.
Proof.
  unfold Transcript.exon_re.
  cbn [Re.scan Re.match_here Re.match_atoms].
  rewrite exon_atom_is_upper. now destruct (is_upper c).
Qed.

Lemma exon_scan_spec s :
  ∀ pos i,
    In i (map (fun m => Re.m_start m + 1) (Re.scan Transcript.exon_re s pos 0))
    ↔ pos < i ∧ ∃ c, String.get (i - pos - 1) s = Some c ∧ is_upper c = true.
Proof.
  induction s as [|c s IH]; intros pos i.
  - simpl. split; [tauto|]. intros [_ [c [H _]]]. discriminate.
  - rewrite exon_scan_cons, in_app_iff, IH.
    destruct (decide (i = pos + 1)) as [->|Hne].
    + replace (pos + 1 - pos - 1) with 0 by lia. cbn [String.get].
      split.
      * intros [H|[H _]]; [|lia].
        destruct (is_upper c) eqn:E; [|destruct H].
        split; [lia|]. now exists c.
      * intros [_ [c' [[= <-] E]]]. left. rewrite E. now left.
    + split.
      * intros [H|[Hlt [c' [Hg E]]]].
        { destruct (is_upper c); simpl in H; [lia | tauto]. }
        split; [lia|]. exists c'. split; [|exact E].
        replace (i - pos - 1) with (S (i - S pos - 1)) by lia. exact Hg.
      * intros [Hlt [c' [Hg E]]]. right. split; [lia|].
        exists c'. split; [|exact E].
        replace (i - pos - 1) with (S (i - S pos - 1)) in Hg by lia. exact Hg.
Qed.

Lemma get_some_lt n s c : String.get n s = Some c → n < String.length s.
Proof.
  revert n. induction s as [|x s IH]; intros n; [discriminate|].
  destruct n as [|n]; simpl; [lia|]. intros H%IH. lia.
Qed.

Lemma exon_scan_sorted s :
  ∀ pos, StronglySorted lt
           (map (fun m => Re.m_start m + 1) (Re.scan Transcript.exon_re s pos 0)).
Proof.
  induction s as [|c s IH]; intros pos; [constructor|].
  rewrite exon_scan_cons. destruct (is_upper c); simpl; [|apply IH].
  constructor; [apply IH|].
  apply Forall_forall. intros i Hi%list_elem_of_In.
  apply exon_scan_spec in Hi. lia.
Qed.

(** C9: position [i] is in [exons] exactly when [1 <= i] and the base at
    index [i-1] is an uppercase letter A-Z, whatever the letter; the list is
    strictly increasing and lies within [1, length]; for acgtACGTacgt it is
    [5,6,7,8]. *)
Theorem C9_exon_positions (name seq : string) :
  let e := Transcript.exons (Transcript.init name seq) in
  (∀ i, In i e ↔
        1 ≤ i ∧ ∃ c, String.get (i - 1) seq = Some c ∧ is_upper c = true) ∧
  StronglySorted lt e ∧
  (∀ i, In i e → 1 ≤ i ≤ Transcript.length (Transcript.init name seq)) ∧
  Transcript.exons (Transcript.init name "acgtACGTacgt") = [5; 6; 7; 8] ∧
  Transcript.exons (Transcript.init name "acXZn") = [3; 4].
Proof.
  cbn zeta. unfold Transcript.init, Re.finditer. cbn [Transcript.exons Transcript.length].
  assert (Hspec : ∀ i,
    In i (map (fun m => Re.m_start m + 1) (Re.scan Transcript.exon_re seq 0 0))
    ↔ 1 ≤ i ∧ ∃ c, String.get (i - 1) seq = Some c ∧ is_upper c = true).
  { intros i. rewrite exon_scan_spec.
    replace (i - 0 - 1) with (i - 1) by lia. reflexivity. }
  split; [exact Hspec|].
  split; [apply exon_scan_sorted|].
  split; [|split; reflexivity].
  intros i [Hi [c [Hg _]]]%Hspec.
  apply get_some_lt in Hg. lia.
Qed.

Lemma C9_witness :
  In 6 (Transcript.exons (Transcript.init "t" "acgtACGTacgt")) ∧
  1 ≤ 6 ≤ Transcript.length (Transcript.init "t" "acgtACGTacgt").
Proof.
  destruct (C9_exon_positions "t" "acgtACGTacgt") as (Hiff & _ & Hrange & _).
  assert (H : In 6 (Transcript.exons (Transcript.init "t" "acgtACGTacgt"))).
  { apply Hiff. split; [lia|]. exists "C"%char. split; reflexivity. }
  split; [exact H | exact (Hrange 6 H)].
Defined.

(** ** The annotation index *)

Lemma dict_set_entries d k v m locs :
  In (m, locs) (Transcript.dict_set d k v) → In (m, locs) d ∨ locs = v.
Proof.
  induction d as [|[k' v'] d IH]; simpl.
  - intros [[= _ <-]|[]]. now right.
  - destruct (Motif.oid k' =? Motif.oid k); simpl.
    + intros [[= <- <-]|H]; [now right | left; now right].
    + intros [H|H]; [left; now left|].
      destruct (IH H) as [H'|H']; [left; now right | now right].
Qed.

(** Every list stored by the first loop is the position list of one of the
    motifs supplied. *)
Lemma locate_entries text :
  ∀ ms d d', Transcript.locate text ms d = Ok d' →
    ∀ m locs, In (m, locs) d' →
      In (m, locs) d ∨ ∃ m', In m' ms ∧ Transcript.motif_positions m' text = Ok locs.
Proof.
  induction ms as [|m0 ms IH]; intros d d'; cbn [Transcript.locate].
  - intros [= <-] m locs H. now left.
  - destruct (Transcript.motif_positions m0 text) as [ps|e] eqn:E;
      cbn [bind]; [|discriminate].
    intros Hloc m locs Hin.
    destruct (IH _ _ Hloc m locs Hin) as [H|(m' & Hm' & Hp)].
    + apply dict_set_entries in H as [H| ->]; [now left|].
      right. exists m0. split; [now left | exact E].
    + right. exists m'. split; [now right | exact Hp].
Qed.

Lemma motif_positions_ok motif text :
  compiles motif → ∃ ps, Transcript.motif_positions motif text = Ok ps.
Proof.
  intros [atoms Ha]. unfold Transcript.motif_positions.
  rewrite (match_starts_spec motif text atoms Ha). cbn [bind]. eauto.
Qed.

Lemma locate_ok text :
  ∀ ms d, Forall compiles ms → ∃ d', Transcript.locate text ms d = Ok d'.
Proof.
  induction ms as [|m0 ms IH]; intros d Hc; cbn [Transcript.locate]; [eauto|].
  apply Forall_cons in Hc as [H0 Hc].
  destruct (motif_positions_ok m0 text H0) as [ps ->]. cbn [bind]. now apply IH.
Qed.

Lemma existsb_eqb_In p (l : list nat) : existsb (Nat.eqb p) l = true ↔ In p l.
Proof.
  rewrite existsb_exists. split.
  - intros [x [Hx ->%Nat.eqb_eq]]. exact Hx.
  - intros H. exists p. split; [exact H | apply Nat.eqb_refl].
Qed.

Lemma in_concat_ranges p len (starts : list nat) :
  In p (concat (map (fun s => range s (s + len)) starts))
  ↔ ∃ s, In s starts ∧ s ≤ p < s + len.
Proof.
  rewrite in_concat. split.
  - intros [l [[s [<- Hs]]%in_map_iff Hp]].
    unfold range in Hp. apply in_seq in Hp. exists s. split; [exact Hs | lia].
  - intros [s [Hs Hp]]. exists (range s (s + len)). split.
    + apply in_map_iff. now exists s.
    + unfold range. apply in_seq. lia.
Qed.

(** A position stored for a motif is covered by one of its occurrences, and
    conversely. *)
Lemma motif_positions_covers motif text ps p :
  Transcript.motif_positions motif text = Ok ps →
  (In p ps ↔ covers motif text p).
Proof.
  unfold Transcript.motif_positions.
  destruct (Re.parse (Motif.re_seq motif) false None) as [atoms|] eqn:Hp.
  2:{ unfold Transcript.match_starts. rewrite re_compile_lookahead, Hp.
      cbn [fmap option_fmap option_map bind]. discriminate. }
  rewrite (match_starts_spec motif text atoms Hp). cbn [bind].
  intros Hok.
  apply (f_equal (fun r => match r with Ok x => x | Raise _ => [] end)) in Hok.
  cbv beta iota in Hok. subst ps.
  rewrite in_concat_ranges. unfold covers. split.
  - intros (s & Hin & Hr).
    apply (proj1 (filter_In _ s (seq 1 (S (String.length text))))) in Hin.
    destruct Hin as [Hin Hm]. apply in_seq in Hin.
    exists atoms, s. split; [exact Hp|]. split; [lia|]. split; [exact Hm | exact Hr].
  - intros (atoms' & s & Hp' & Hb & Hm & Hr).
    rewrite Hp in Hp'. injection Hp' as <-.
    exists s. split; [|exact Hr]. apply filter_In. split; [|exact Hm].
    apply in_seq. lia.
Qed.

Lemma labels_fold_unchanged p d :
  (∀ m locs, In (m, locs) d → ¬ In p locs) →
  ∀ acc, fold_left (Transcript.labels_step p) d acc = acc.
Proof.
  induction d as [|[m locs] d IH]; intros H acc; [reflexivity|].
  cbn [fold_left Transcript.labels_step].
  assert (E : existsb (Nat.eqb p) locs = false).
  { apply not_true_iff_false. rewrite existsb_eqb_In. apply (H m). now left. }
  rewrite E. cbn [andb]. apply IH. intros m' locs' Hin. apply (H m'). now right.
Qed.

Lemma index_fold_lookup (d : Transcript.locations) p :
  ∀ k a (idx : gmap nat (list string)),
    fold_left (fun idx position => <[position := Transcript.labels_at position d]> idx)
              (seq a k) idx !! p
    = if decide (a ≤ p < a + k) then Some (Transcript.labels_at p d) else idx !! p.
Proof.
  induction k as [|k IH]; intros a idx; cbn [seq fold_left].
  - case_decide; [lia | reflexivity].
  - rewrite IH. destruct (decide (p = a)) as [->|Hne].
    + rewrite decide_False by lia. rewrite lookup_insert_eq.
      rewrite decide_True by lia. reflexivity.
    + rewrite lookup_insert_ne by congruence.
      destruct (decide (S a ≤ p < S a + k)), (decide (a ≤ p < a + S k));
        try lia; reflexivity.
Qed.

Lemma build_index_lookup n d p :
  Transcript.build_index n d !! p
  = if decide (1 ≤ p ≤ n) then Some (Transcript.labels_at p d) else None.
Proof.
  unfold Transcript.build_index, range.
  replace (n + 1 - 1) with n by lia.
  rewrite index_fold_lookup, lookup_empty.
  repeat case_decide; try lia; reflexivity.
Qed.

Lemma find_motifs_ok (t : Transcript.t) (ms : list Motif.t) :
  Forall compiles ms → ∃ ann, Transcript.find_motifs t ms = Ok ann.
Proof.
  intros Hc. unfold Transcript.find_motifs.
  destruct (locate_ok (Transcript.sequence t) ms [] Hc) as [d ->].
  cbn [bind]. eauto.
Qed.

(** C2: when the search returns (it does whenever every match pattern is in
    the modelled fragment), the index has a key for exactly the positions
    1..length of the sequence, [length] keys in all, and a position covered
    by no occurrence of any motif of the list carries the empty label
    list. *)
Theorem C2_index_is_dense (t : Transcript.t) (ms : list Motif.t) :
  (Forall compiles ms → ∃ ann, Transcript.find_motifs t ms = Ok ann) ∧
  (∀ ann, Transcript.find_motifs t ms = Ok ann →
     let n := String.length (Transcript.sequence t) in
     (∀ p, is_Some (Transcript.position_motif ann !! p) ↔ 1 ≤ p ≤ n) ∧
     size (Transcript.position_motif ann) = n ∧
     (∀ p, 1 ≤ p ≤ n →
           (∀ m, In m ms → ¬ covers m (Transcript.sequence t) p) →
           Transcript.position_motif ann !! p = Some [])).
Proof.
  split; [apply find_motifs_ok|].
  unfold Transcript.find_motifs. intros ann.
  destruct (Transcript.locate (Transcript.sequence t) ms []) as [d|e] eqn:E;
    cbn [bind]; [|discriminate].
  intros [= <-]. cbn zeta. cbn [Transcript.position_motif].
  set (n := String.length (Transcript.sequence t)).
  assert (Hkeys : ∀ p, is_Some (Transcript.build_index n d !! p) ↔ 1 ≤ p ≤ n).
  { intros p. rewrite build_index_lookup. case_decide.
    - split; [tauto | eauto].
    - split; [intros [x Hx]; discriminate | tauto]. }
  split; [exact Hkeys|]. split.
  - rewrite <- size_dom.
    assert (Hdom : dom (Transcript.build_index n d)
                   = (list_to_set (seq 1 n) : gset nat)).
    { apply set_eq. intros p.
      rewrite elem_of_dom, Hkeys, elem_of_list_to_set, elem_of_seq. lia. }
    rewrite Hdom, size_list_to_set, length_seq; [reflexivity | apply NoDup_seq].
  - intros p Hp Hno. rewrite build_index_lookup.
    case_decide; [|lia]. f_equal.
    unfold Transcript.labels_at. apply labels_fold_unchanged.
    intros m locs Hin Hpl.
    destruct (locate_entries _ _ _ _ E m locs Hin) as [[]|(m' & Hm' & Hpos)].
    apply (Hno m' Hm').
    now apply (motif_positions_covers m' _ locs p Hpos).
Qed.

Lemma C2_witness :
  ∃ ann,
    Transcript.find_motifs (Transcript.init "t1" "acgt") [Motif.init 0 "GT"] = Ok ann ∧
    Transcript.position_motif ann !! 1 = Some [] ∧
    size (Transcript.position_motif ann) = 4.
Proof.
  destruct (C2_index_is_dense (Transcript.init "t1" "acgt") [Motif.init 0 "GT"])
    as [Hex Hprop].
  destruct Hex as [ann Hann].
  { repeat constructor. vm_compute. eauto. }
  exists ann. split; [exact Hann|].
  destruct (Hprop ann Hann) as (_ & Hsize & Hempty).
  split; [|exact Hsize].
  apply Hempty; [simpl; lia|].
  intros m [<-|[]] (atoms & s & Hp & Hs & Hm & Hr).
  vm_compute in Hp. injection Hp as <-.
  assert (s = 1) by (simpl in Hr; lia). subst s.
  vm_compute in Hm. discriminate.
Defined.

(** The test [motif not in self.position_motif[position]] looks for a motif
    object in a list of strings, so it always succeeds. *)
Lemma py_in_motif_labels (m : Motif.t) (labels : list string) :
  py_in (PMotif m) (PStr <$> labels) = false.
Proof. induction labels as [|l labels IH]; [reflexivity | exact IH]. Qed.

Lemma labels_step_eq p labels m locs :
  Transcript.labels_step p labels (m, locs)
  = if existsb (Nat.eqb p) locs then (labels ++ [Motif.seq m])%list else labels.
Proof.
  cbn [Transcript.labels_step]. rewrite py_in_motif_labels.
  now destruct (existsb (Nat.eqb p) locs).
Qed.

Lemma labels_fold_eq p (d : Transcript.locations) :
  ∀ acc,
    fold_left (Transcript.labels_step p) d acc
    = (acc ++ map (fun e => Motif.seq (fst e))
                (List.filter (fun e => existsb (Nat.eqb p) (snd e)) d))%list.
Proof.
  induction d as [|[m locs] d IH]; intros acc; cbn [fold_left List.filter].
  - now rewrite app_nil_r.
  - rewrite labels_step_eq, IH. cbn [snd].
    destruct (existsb (Nat.eqb p) locs); [|reflexivity].
    cbn [map fst]. now rewrite <- app_assoc.
Qed.

Lemma dict_set_fresh d k v :
  (∀ e, In e d → Motif.oid (fst e) ≠ Motif.oid k) →
  Transcript.dict_set d k v = (d ++ [(k, v)])%list.
Proof.
  induction d as [|[k' v'] d IH]; intros H; [reflexivity|].
  cbn [Transcript.dict_set].
  destruct (Nat.eqb_spec (Motif.oid k') (Motif.oid k)) as [E|_].
  - exfalso. apply (H (k', v')); [now left | exact E].
  - cbn [app]. f_equal. apply IH. intros e He. apply H. now right.
Qed.

(** With pairwise distinct motif objects the first loop appends one entry
    per motif, in input order. *)
Lemma locate_distinct text p :
  ∀ ms d d',
    NoDup (map Motif.oid ms) →
    (∀ e m, In e d → In m ms → Motif.oid (fst e) ≠ Motif.oid m) →
    Transcript.locate text ms d = Ok d' →
    map (fun e => Motif.seq (fst e))
        (List.filter (fun e => existsb (Nat.eqb p) (snd e)) d')
    = (map (fun e => Motif.seq (fst e))
           (List.filter (fun e => existsb (Nat.eqb p) (snd e)) d)
       ++ map Motif.seq (List.filter (fun m => covered_by m text p) ms))%list.
Proof.
  induction ms as [|m0 ms IH]; intros d d' Hnd Hfresh; cbn [Transcript.locate].
  - intros Hok.
    apply (f_equal (fun r => match r with Ok x => x | Raise _ => [] end)) in Hok.
    cbv beta iota in Hok. subst d'. cbn [List.filter map]. now rewrite app_nil_r.
  - destruct (Transcript.motif_positions m0 text) as [ps|e] eqn:E;
      cbn [bind]; [|discriminate].
    intros Hloc. cbn [map] in Hnd. apply NoDup_cons in Hnd as [Hm0 Hnd].
    rewrite dict_set_fresh in Hloc.
    2:{ intros e He. apply Hfresh; [exact He | now left]. }
    rewrite (IH _ _ Hnd) with (2 := Hloc).
    + rewrite List.filter_app, List.map_app. cbn [List.filter snd].
      unfold covered_by at 2. rewrite E.
      destruct (existsb (Nat.eqb p) ps); cbn [map fst app];
        rewrite <- app_assoc; reflexivity.
    + intros e m [He|[<-|[]]]%in_app_iff Hm.
      * apply Hfresh; [exact He | now right].
      * cbn [fst]. intros Heq. apply Hm0.
        rewrite list_elem_of_In, Heq. apply in_map. exact Hm.
Qed.

(** The labels at a position when the motif objects are pairwise distinct:
    one label per motif object that covers the position, in input order. *)
Lemma labels_in_motif_order (t : Transcript.t) (ms : list Motif.t) ann p :
  NoDup (map Motif.oid ms) →
  Transcript.find_motifs t ms = Ok ann →
  1 ≤ p ≤ String.length (Transcript.sequence t) →
  Transcript.position_motif ann !! p
  = Some (map Motif.seq
            (List.filter (fun m => covered_by m (Transcript.sequence t) p) ms)).
Proof.
  intros Hnd Hfm Hp. unfold Transcript.find_motifs in Hfm.
  destruct (Transcript.locate (Transcript.sequence t) ms []) as [d|e] eqn:E;
    cbn [bind] in Hfm; [|discriminate].
  apply (f_equal (fun r => match r with
                           | Ok x => Transcript.position_motif x
                           | Raise _ => ∅ end)) in Hfm.
  cbv beta iota in Hfm. cbn [Transcript.position_motif] in Hfm. rewrite <- Hfm.
  rewrite build_index_lookup, decide_True by lia. f_equal.
  unfold Transcript.labels_at. rewrite labels_fold_eq. cbn [app].
  rewrite (locate_distinct _ p ms [] d Hnd) with (2 := E); [reflexivity|].
  intros e m [].
Qed.

(** C3 (the code departs from the claim): two motif objects with the same
    raw sequence, as produced by a motif file that repeats a line, each add
    their label, so the label appears twice at every position they cover.
    Overlapping occurrences of a single motif object still give one
    label. *)
Theorem C3_equal_motifs_label_twice :
  ∃ ann ann1,
    Transcript.find_motifs (Transcript.init "t" "AA")
                           (parse_motif_txt 0 ["AA"; "AA"]) = Ok ann ∧
    Transcript.position_motif ann !! 1 = Some ["AA"; "AA"] ∧
    Transcript.position_motif ann !! 2 = Some ["AA"; "AA"] ∧
    Transcript.find_motifs (Transcript.init "t" "AAA")
                           (parse_motif_txt 0 ["AA"]) = Ok ann1 ∧
    Transcript.position_motif ann1 !! 2 = Some ["AA"].
Proof.
  eexists. eexists.
  split; [reflexivity|]. split; [reflexivity|]. split; [reflexivity|].
  split; reflexivity.
Qed.

(** ** Motifs without metacharacters compile *)

Lemma is_meta_false c :
  Re.is_meta c = false →
  Ascii.eqb c "[" = false ∧ Ascii.eqb c ")" = false.
Proof.
  unfold Re.is_meta, Re.meta_chars. cbn [existsb].
  rewrite !orb_false_iff. tauto.
Qed.

Lemma dict_get_in k d v : dict_get k d = Some v → In (k, v) d.
Proof.
  induction d as [|[k' v'] d IH]; cbn [dict_get]; [discriminate|].
  destruct (Ascii.eqb_spec k k') as [->|_].
  - intros [= ->]. now left.
  - intros H. right. now apply IH.
Qed.

(** Each unit emitted by [modular_motif] compiles to one atom, whatever
    follows it. *)
Lemma parse_unit c rest grp :
  Re.is_meta c = false →
  Re.parse (unit_of c ++ rest) grp None
  = cons (unit_atom c) <$> Re.parse rest grp None.
Proof.
  intros Hm. unfold unit_atom, unit_of.
  destruct (dict_get c ambig_nucleotides) as [cls|] eqn:E.
  - apply dict_get_in in E. unfold ambig_nucleotides in E. cbn [In] in E.
    repeat (destruct E as [[= <- <-]|E];
            [rewrite !append_cons, append_nil; destruct rest as [|e rest];
             reflexivity|]).
    destruct E.
  - destruct (is_meta_false c Hm) as [H1 H2].
    rewrite append_cons, append_nil. cbn [Re.parse].
    rewrite H1, H2, Hm. reflexivity.
Qed.

Lemma plain_compiles seq :
  plain seq = true →
  Re.parse (Motif.modular_motif seq) false None
  = Some (map unit_atom (list_ascii_of_string seq)).
Proof.
  induction seq as [|c rest IH]; [reflexivity|].
  cbn [plain string_forallb]. intros [Hc Hrest]%andb_true_iff.
  apply negb_true_iff in Hc.
  rewrite modular_motif_cons, (parse_unit c _ false Hc), (IH Hrest).
  reflexivity.
Qed.

Lemma plain_init_compiles id seq : plain seq = true → compiles (Motif.init id seq).
Proof. intros H. unfold compiles. cbn [Motif.re_seq Motif.init]. rewrite plain_compiles; eauto. Qed.

(** The motifs of a motif file without metacharacters all compile, so the
    search returns an index for them. *)
Lemma motif_file_compiles (lines : list string) :
  Forall (fun line => plain (upper line) = true) lines →
  ∀ next_id, Forall compiles (parse_motif_txt next_id lines).
Proof.
  induction 1 as [|line lines Hline _ IH]; intros next_id;
    cbn [parse_motif_txt]; [constructor|].
  destruct (String.eqb line ""); [apply IH|].
  constructor; [now apply plain_init_compiles | apply IH].
Qed.


(** ** The ambiguity classes *)

(** C10 (the code departs from the claim): every code of the table matches
    its own letter in the sequence, in either case, and every code but H
    matches each base that the IUPAC code gives it; the class stored for H,
    [[HACG]], is the one of V: motif H does not match base T (nor U), which
    IUPAC includes, and matches G, which it excludes. *)
Theorem C10_H_class_misses_T :
  forallb (fun e => motif_hits (fst e) (fst e)
                    && motif_hits (fst e) (ascii_of_nat (nat_of_ascii (fst e) + 32)))
          ambig_nucleotides = true ∧
  map fst iupac_nucleotides = map fst ambig_nucleotides ∧
  forallb (fun e => Ascii.eqb (fst e) "H"
                    || string_forallb (motif_hits (fst e)) (snd e))
          iupac_nucleotides = true ∧
  dict_get "H" iupac_nucleotides = Some "ACT" ∧
  dict_get "H" ambig_nucleotides = Some "[HACG]" ∧
  map (motif_hits "H") ["H"; "A"; "C"; "G"; "T"; "U"]%char
  = [true; true; true; true; false; false].
Proof.
  split; [vm_compute; reflexivity|]. split; [reflexivity|].
  split; [vm_compute; reflexivity|]. split; [reflexivity|].
  split; [reflexivity | vm_compute; reflexivity].
Qed.

(** ** Layout *)

Lemma max_from_length (x : Transcript.t) (l : list Transcript.t) :
  Transcript.length (MotifsImage.max_from x l)
  = Nat.max (Transcript.length x) (max_length l).
Proof.
  revert x. induction l as [|y l IH]; intros x; cbn [MotifsImage.max_from].
  - unfold max_length. simpl. lia.
  - unfold max_length in *. cbn [map foldr].
    destruct (Nat.ltb_spec (Transcript.length x) (Transcript.length y));
      rewrite IH; lia.
Qed.

Lemma py_max_length (ts : list Transcript.t) :
  ts ≠ [] →
  ∃ longest, MotifsImage.py_max ts = Ok longest ∧
             Transcript.length longest = max_length ts.
Proof.
  destruct ts as [|x l]; [congruence|]. intros _.
  exists (MotifsImage.max_from x l). split; [reflexivity|].
  rewrite max_from_length. unfold max_length. cbn [map foldr]. reflexivity.
Qed.

(** The colour loop succeeds while palette entries remain, and each motif
    gets the entry of its index unless a later motif with the same raw
    sequence overwrites it. *)
Lemma assign_colors_ok (colors : list MotifsImage.color) :
  ∀ ms k (cp0 : gmap string MotifsImage.color),
    k + length ms ≤ length colors →
    ∃ cp,
      MotifsImage.assign_colors colors k ms cp0 = Ok cp ∧
      (∀ key, (∀ mo, In mo ms → Motif.seq mo ≠ key) → cp !! key = cp0 !! key) ∧
      (∀ i mo, ms !! i = Some mo →
         (∀ j mo', i < j → ms !! j = Some mo' → Motif.seq mo' ≠ Motif.seq mo) →
         cp !! Motif.seq mo = colors !! (k + i)).
Proof.
  induction ms as [|m0 ms IH]; intros k cp0 Hlen; cbn [MotifsImage.assign_colors].
  - exists cp0. split; [reflexivity|]. split; [reflexivity|].
    intros i mo H. discriminate.
  - cbn [length] in Hlen.
    assert (Hk : k < length colors) by lia.
    destruct (lookup_lt_is_Some_2 _ _ Hk) as [c Hc]. rewrite Hc.
    assert (Hk' : S k + length ms ≤ length colors) by lia.
    destruct (IH (S k) (<[Motif.seq m0 := c]> cp0) Hk')
      as (cp & Hcp & Hother & Hidx).
    exists cp. split; [exact Hcp|]. split.
    + intros key Hkey. rewrite Hother.
      * apply lookup_insert_ne. apply Hkey. now left.
      * intros mo Hmo. apply Hkey. now right.
    + intros [|i] mo Hi Hlater.
      * cbn in Hi. injection Hi as <-. rewrite Hother.
        { rewrite lookup_insert_eq, Nat.add_0_r. now rewrite Hc. }
        intros mo [j Hj]%list_elem_of_In%list_elem_of_lookup.
        apply (Hlater (S j)); [lia | exact Hj].
      * cbn in Hi. rewrite (Hidx i mo Hi).
        { f_equal. lia. }
        intros j mo' Hij Hj. apply (Hlater (S j)); [lia | exact Hj].
Qed.

(** ... and it raises [IndexError] as soon as they run out. *)
Lemma assign_colors_overflow (colors : list MotifsImage.color) :
  ∀ ms k (cp0 : gmap string MotifsImage.color),
    k ≤ length colors →
    length colors < k + length ms →
    MotifsImage.assign_colors colors k ms cp0 = Raise IndexError.
Proof.
  induction ms as [|m0 ms IH]; intros k cp0 Hk Hlen; cbn [MotifsImage.assign_colors].
  - cbn [length] in Hlen. lia.
  - cbn [length] in Hlen.
    destruct (colors !! k) as [c|] eqn:Hc; [|reflexivity].
    apply lookup_lt_Some in Hc. apply IH; lia.
Qed.

(** The attributes of a constructed image. *)
Lemma init_fields name ts ms img :
  MotifsImage.init name ts ms = Ok img →
  let L := Z.of_nat (max_length ts) in
  (MotifsImage.scale img = 2 ∧ MotifsImage.margins img = 50 ∧
   MotifsImage.spacing img = 200 ∧ MotifsImage.foot_len img = 120 ∧
   MotifsImage.longest_len img = L ∧
   MotifsImage.title_len img = 25 + 20 * Z.of_nat (length ms) ∧
   MotifsImage.num_images img = Z.of_nat (length ts) ∧
   MotifsImage.width img = 50 * 2 + L * 2 ∧
   MotifsImage.height img
   = Z.of_nat (length ts) * 200 + (25 + 20 * Z.of_nat (length ms)) + 120 ∧
   MotifsImage.tick_spacing img = (L * 2) / 4 ∧
   MotifsImage.ticklabels img
   = [ "0"%string; py_str (py_round_div L 4); py_str (py_round_div L 2);
       py_str (py_round_div (L * 3) 4); py_str L ] ∧
   MotifsImage.assign_colors MotifsImage.palette 0 ms ∅
   = Ok (MotifsImage.color_pairs img))%Z.
Proof.
  unfold MotifsImage.init.
  destruct ts as [|x l]; [discriminate|].
  destruct (py_max_length (x :: l) ltac:(discriminate)) as (longest & -> & HL).
  cbn [bind].
  destruct (MotifsImage.assign_colors MotifsImage.palette 0 ms ∅) as [cp|e];
    cbn [bind]; [|discriminate].
  intros Hok.
  apply (f_equal (fun r => match r with Ok i => Some i | Raise _ => None end)) in Hok.
  cbv beta iota in Hok. injection Hok as <-.
  cbn zeta. rewrite <- HL. cbn.
  repeat split; reflexivity.
Qed.

Lemma init_ok name ts ms :
  ts ≠ [] → length ms ≤ 10 → ∃ img, MotifsImage.init name ts ms = Ok img.
Proof.
  intros Hts Hms. unfold MotifsImage.init.
  destruct (py_max_length ts Hts) as (longest & -> & _). cbn [bind].
  destruct (assign_colors_ok MotifsImage.palette ms 0 ∅) as (cp & -> & _).
  { cbn. lia. }
  cbn [bind]. eauto.
Qed.

Lemma max_length_bound (ts : list Transcript.t) (t : Transcript.t) :
  In t ts → Transcript.length t ≤ max_length ts.
Proof.
  unfold max_length. induction ts as [|x ts IH]; [intros []|].
  cbn [map foldr]. intros [->|H]; [lia|]. specialize (IH H). lia.
Qed.

(** C6: for a non-empty transcript list, the image is built whenever at
    most ten motifs are given, and its width is [2*margins + scale*longest]
    with scale 2 and margins 50, [longest] being the greatest transcript
    length; its height is [rows*spacing + title_len + foot_len] with
    spacing 200, foot_len 120 and title_len = 25 + 20 * (number of
    motifs). *)
Theorem C6_canvas_size (name : string) (ts : list Transcript.t) (ms : list Motif.t) :
  ts ≠ [] →
  (length ms ≤ 10 → ∃ img, MotifsImage.init name ts ms = Ok img) ∧
  (∀ t, In t ts → Transcript.length t ≤ max_length ts) ∧
  (∀ img, MotifsImage.init name ts ms = Ok img →
     (MotifsImage.scale img = 2 ∧
      MotifsImage.margins img = 50 ∧
      MotifsImage.spacing img = 200 ∧
      MotifsImage.foot_len img = 120 ∧
      MotifsImage.title_len img = 25 + 20 * Z.of_nat (length ms) ∧
      MotifsImage.width img
      = 2 * MotifsImage.margins img
        + MotifsImage.scale img * Z.of_nat (max_length ts) ∧
      MotifsImage.height img
      = Z.of_nat (length ts) * MotifsImage.spacing img
        + MotifsImage.title_len img + MotifsImage.foot_len img)%Z).
Proof.
  intros Hts. split; [now apply init_ok|]. split; [apply max_length_bound|].
  intros img Hok.
  destruct (init_fields name ts ms img Hok)
    as (Hsc & Hma & Hsp & Hfo & _ & Hti & _ & Hw & Hh & _).
  rewrite Hsc, Hma, Hsp, Hfo, Hti, Hw, Hh.
  repeat split; lia.
Qed.

Lemma C6_witness :
  ∃ img,
    MotifsImage.init "fig" [Transcript.init "a" "ACGTA"; Transcript.init "b" "AC"]
                     [Motif.init 0 "AA"] = Ok img ∧
    MotifsImage.width img = 110%Z ∧ MotifsImage.height img = 565%Z.
Proof.
  destruct (C6_canvas_size "fig"
              [Transcript.init "a" "ACGTA"; Transcript.init "b" "AC"]
              [Motif.init 0 "AA"] ltac:(discriminate)) as (Hex & _ & Hdim).
  destruct Hex as [img Himg]; [simpl; lia|].
  exists img. split; [exact Himg|].
  destruct (Hdim img Himg) as (Hsc & Hma & Hsp & Hfo & Hti & Hw & Hh).
  rewrite Hw, Hh, Hsc, Hma, Hsp, Hfo, Hti. split; reflexivity.
Defined.

Lemma py_round_div_nearest (n d : Z) :
  (0 ≤ n → 0 < d → 2 * Z.abs (d * py_round_div n d - n) ≤ d)%Z.
Proof.
  intros Hn Hd. unfold py_round_div.
  pose proof (Z.div_mod n d ltac:(lia)) as Hdm.
  pose proof (Z.mod_pos_bound n d Hd) as Hr.
  destruct (Z.ltb_spec (2 * (n mod d)) d);
    [|destruct (Z.ltb_spec d (2 * (n mod d))); [|destruct (Z.even (n / d))]];
    nia.
Qed.

(** C7 as written fails on the code: with an odd longest length the tick
    spacing is rounded down and the last tick stops short of the right end
    of the drawable width. *)
Lemma C7_counterexample :
  ∃ img,
    MotifsImage.init "fig" [Transcript.init "a" "ACG"] [] = Ok img ∧
    MotifsImage.longest_len img = 3%Z ∧
    move_xs (MotifsImage.add_ticks img) = [50; 51; 52; 53; 54]%Z ∧
    (MotifsImage.margins img + MotifsImage.scale img * MotifsImage.longest_len img
     = 56)%Z ∧
    MotifsImage.ticklabels img = ["0"; "1"; "2"; "2"; "3"].
Proof.
  eexists. split; [reflexivity|]. repeat split; reflexivity.
Qed.

(** C7 (amended): for a non-empty transcript list (and at most ten motifs)
    exactly five ticks are drawn, at x = margins + i * floor(scale*L/4) for
    i = 0..4, L being the longest length; they are evenly spaced; when L is
    even, tick i lies at i/4 of the drawable width and the last tick is at
    its right end, and when L is odd the last tick lies 2 pixels short of
    it; the labels are 0, round(L/4), round(L/2), round(3L/4) and L, where
    round yields a nearest integer (ties to even). *)
Theorem C7_axis_ticks (name : string) (ts : list Transcript.t) (ms : list Motif.t) :
  ts ≠ [] → length ms ≤ 10 →
  ∃ img,
    MotifsImage.init name ts ms = Ok img ∧
    let L := Z.of_nat (max_length ts) in
    let sp := MotifsImage.tick_spacing img in
    (sp = (MotifsImage.scale img * L) / 4 ∧
     move_xs (MotifsImage.add_ticks img)
     = [50; 50 + sp; 50 + 2 * sp; 50 + 3 * sp; 50 + 4 * sp] ∧
     MotifsImage.ticklabels img
     = [ "0"%string; py_str (py_round_div L 4); py_str (py_round_div L 2);
         py_str (py_round_div (L * 3) 4); py_str L ] ∧
     (Z.even L = true →
      4 * sp = MotifsImage.scale img * L ∧
      50 + 4 * sp = MotifsImage.width img - MotifsImage.margins img) ∧
     (Z.odd L = true →
      50 + 4 * sp = MotifsImage.width img - MotifsImage.margins img - 2) ∧
     2 * Z.abs (4 * py_round_div L 4 - L) ≤ 4 ∧
     2 * Z.abs (2 * py_round_div L 2 - L) ≤ 2 ∧
     2 * Z.abs (4 * py_round_div (L * 3) 4 - L * 3) ≤ 4)%Z.
Proof.
  intros Hts Hms.
  destruct (init_ok name ts ms Hts Hms) as [img Hok].
  exists img. split; [exact Hok|].
  destruct (init_fields name ts ms img Hok)
    as (Hsc & Hma & _ & _ & _ & _ & _ & Hw & _ & Hsp & Hlab & _).
  cbn zeta.
  set (L := Z.of_nat (max_length ts)) in *.
  assert (HL : (0 ≤ L)%Z) by (unfold L; lia).
  split; [rewrite Hsp, Hsc; f_equal; lia|].
  split.
  { unfold MotifsImage.add_ticks, MotifsImage.tick, range.
    rewrite Hlab, Hma. cbn [length Nat.sub seq map concat app move_xs].
    repeat f_equal; lia. }
  split; [exact Hlab|].
  rewrite Hsp, Hsc, Hma, Hw.
  split.
  { intros He. apply Z.even_spec in He as [k Hk].
    replace (L * 2)%Z with (k * 4)%Z by lia. rewrite Z.div_mul by lia. lia. }
  split.
  { intros Ho. apply Z.odd_spec in Ho as [k Hk].
    replace (L * 2)%Z with (2 + k * 4)%Z by lia.
    rewrite Z.div_add by lia. change (2 / 4)%Z with 0%Z. lia. }
  split; [|split]; apply py_round_div_nearest; lia.
Qed.

Lemma C7_witness :
  ∃ img,
    MotifsImage.init "fig" [Transcript.init "a" "ACGTACGT"] [] = Ok img ∧
    move_xs (MotifsImage.add_ticks img) = [50; 54; 58; 62; 66]%Z ∧
    MotifsImage.ticklabels img = ["0"; "2"; "4"; "6"; "8"].
Proof.
  destruct (C7_axis_ticks "fig" [Transcript.init "a" "ACGTACGT"] [])
    as (img & Himg & Hsp & Hxs & Hlab & _); [discriminate | simpl; lia |].
  exists img. split; [exact Himg|].
  rewrite Hxs, Hlab, Hsp.
  destruct (init_fields _ _ _ _ Himg) as (-> & _).
  split; reflexivity.
Defined.

(** C8 as written fails on the code: the eleventh motif makes the palette
    lookup raise Python's [IndexError]; no [TooManyMotifs] error exists. *)
Lemma C8_counterexample :
  length (parse_motif_txt 0 eleven_lines) = 11 ∧
  MotifsImage.init "fig" [Transcript.init "a" "ACGT"]
                   (parse_motif_txt 0 eleven_lines) = Raise IndexError ∧
  MotifsImage.init "fig" [Transcript.init "a" "ACGT"]
                   (parse_motif_txt 0 eleven_lines) ≠ Raise TooManyMotifs.
Proof.
  split; [reflexivity|].
  assert (E : MotifsImage.init "fig" [Transcript.init "a" "ACGT"]
                (parse_motif_txt 0 eleven_lines) = Raise IndexError)
    by reflexivity.
  split; [exact E | rewrite E; discriminate].
Qed.

(** C8 (amended): colours are assigned in input order, the motif at index i
    receiving palette entry i (a later motif with the same raw sequence
    overwrites the entry of an earlier one); with at most 10 motifs, the
    palette size, the assignment succeeds, and with more than 10 it fails
    with [IndexError] at the eleventh motif, without wrapping around. *)
Theorem C8_colour_assignment (name : string) (ts : list Transcript.t)
    (ms : list Motif.t) :
  ts ≠ [] →
  length MotifsImage.palette = 10 ∧
  (length ms ≤ 10 →
   ∃ img,
     MotifsImage.init name ts ms = Ok img ∧
     ∀ i mo,
       ms !! i = Some mo →
       (∀ j mo', i < j → ms !! j = Some mo' → Motif.seq mo' ≠ Motif.seq mo) →
       MotifsImage.color_pairs img !! Motif.seq mo = MotifsImage.palette !! i) ∧
  (10 < length ms → MotifsImage.init name ts ms = Raise IndexError).
Proof.
  intros Hts. split; [reflexivity|]. split.
  - intros Hms. destruct (init_ok name ts ms Hts Hms) as [img Hok].
    exists img. split; [exact Hok|].
    destruct (init_fields name ts ms img Hok)
      as (_ & _ & _ & _ & _ & _ & _ & _ & _ & _ & _ & Hcp).
    destruct (assign_colors_ok MotifsImage.palette ms 0 ∅) as (cp & Hcp' & _ & Hidx).
    { cbn. lia. }
    rewrite Hcp in Hcp'. injection Hcp' as <-.
    intros i mo Hi Hlater. rewrite (Hidx i mo Hi Hlater). reflexivity.
  - intros Hms. unfold MotifsImage.init.
    destruct (py_max_length ts Hts) as (longest & -> & _). cbn [bind].
    rewrite assign_colors_overflow; [reflexivity | cbn; lia | cbn; lia].
Qed.

Lemma C8_witness :
  (∃ img,
     MotifsImage.init "fig" [Transcript.init "a" "ACGT"]
                      [Motif.init 0 "AA"; Motif.init 1 "YGCY"] = Ok img ∧
     MotifsImage.color_pairs img !! "YGCY" = Some (1, 0, 0)%Q) ∧
  MotifsImage.init "fig" [Transcript.init "a" "ACGT"]
                   (parse_motif_txt 0 eleven_lines) = Raise IndexError.
Proof.
  split.
  - destruct (C8_colour_assignment "fig" [Transcript.init "a" "ACGT"]
                [Motif.init 0 "AA"; Motif.init 1 "YGCY"] ltac:(discriminate))
      as (_ & Hle & _).
    destruct Hle as (img & Himg & Hcol); [simpl; lia|].
    exists img. split; [exact Himg|].
    apply (Hcol 1 (Motif.init 1 "YGCY") eq_refl).
    intros [|[|j]] mo' Hj Hmo'; [lia | lia | discriminate Hmo'].
  - apply (C8_colour_assignment "fig" [Transcript.init "a" "ACGT"]
             (parse_motif_txt 0 eleven_lines) ltac:(discriminate)).
    simpl. lia.
Defined.

(** ** Reading FASTA and motif files *)

Lemma prefix_gt_inv s :
  String.prefix ">" s = true → ∃ r, s = String ">" r.
Proof.
  destruct s as [|b r]; cbn [String.prefix]; [discriminate|].
  destruct (Ascii.ascii_dec ">" b) as [<-|_]; [eauto | discriminate].
Qed.

Lemma prefix_gt_cons r : String.prefix ">" (String ">" r) = true.
Proof.
  cbn [String.prefix].
  destruct (Ascii.ascii_dec ">" ">"); [destruct r; reflexivity | congruence].
Qed.

Lemma rstrip_cons c s :
  is_space c = false → rstrip (String c s) = String c (rstrip s).
Proof. intros H. cbn [rstrip]. rewrite H. now destruct (rstrip s). Qed.

Lemma strip_cons c s :
  is_space c = false → strip (String c s) = String c (rstrip s).
Proof. intros H. unfold strip. cbn [lstrip]. rewrite H. now apply rstrip_cons. Qed.

Lemma split_cons_nonempty c s : is_space c = false → split (String c s) ≠ [].
Proof.
  intros H. cbn [split]. rewrite H.
  destruct s as [|d s']; [discriminate|].
  destruct (is_space d); [discriminate|].
  destruct (split (String d s')); discriminate.
Qed.

Lemma rstrip_head d s e r : rstrip (String d s) = String e r → e = d.
Proof.
  cbn [rstrip]. destruct (rstrip s); [destruct (is_space d)|]; congruence.
Qed.

Lemma rstrip_cons_tail c s e r :
  rstrip s = String e r → rstrip (String c s) = String c (String e r).
Proof. intros H. cbn [rstrip]. now rewrite H. Qed.

(** Trailing whitespace does not change the tokens. *)
Lemma split_rstrip s : split (rstrip s) = split s.
Proof.
  induction s as [|c s' IH]; [reflexivity|].
  destruct (rstrip s') as [|e r'] eqn:Er.
  - assert (Hs' : split s' = []) by (now rewrite <- IH).
    cbn [rstrip]. rewrite Er.
    destruct (is_space c) eqn:Ec.
    + cbn [split]. now rewrite Ec.
    + cbn [split]. rewrite Ec.
      destruct s' as [|d s'']; [reflexivity|].
      rewrite Hs'. destruct (is_space d); reflexivity.
  - rewrite (rstrip_cons_tail c s' e r' Er).
    destruct s' as [|d s'']; [discriminate|].
    pose proof (rstrip_head _ _ _ _ Er) as ->.
    cbn [split] in *. destruct (is_space c); [exact IH|].
    destruct (is_space d); now rewrite IH.
Qed.

(** A leading token without whitespace, followed by whitespace or by
    nothing, is the first element of the split. *)
Lemma split_token tok t :
  tok ≠ "" → no_space tok = true → space_led t = true →
  split (tok ++ t) = tok :: split t.
Proof.
  induction tok as [|c tok' IH]; [congruence|]. intros _.
  cbn [no_space string_forallb]. intros [Hc Htok]%andb_true_iff Ht.
  apply negb_true_iff in Hc.
  rewrite append_cons. cbn [split]. rewrite Hc.
  destruct tok' as [|d tok''].
  - rewrite append_nil. destruct t as [|d t']; [reflexivity|].
    cbn [space_led] in Ht. now rewrite Ht.
  - rewrite append_cons.
    assert (Hd : is_space d = false).
    { cbn [no_space string_forallb] in Htok.
      apply andb_true_iff in Htok as [Hd _]. now apply negb_true_iff in Hd. }
    rewrite Hd, <- append_cons, IH; [reflexivity | discriminate | exact Htok | exact Ht].
Qed.

Lemma fasta_step_ok st line : ∃ st', fasta_step st line = Ok st'.
Proof.
  destruct st as [[tl rn] sq]. unfold fasta_step.
  destruct (String.prefix ">" (strip line)) eqn:Hp; cbn [andb]; [|eauto].
  destruct (prefix_gt_inv _ Hp) as [r Hr].
  pose proof (split_cons_nonempty ">" r eq_refl) as Hne. rewrite <- Hr in Hne.
  destruct (split (strip line)) as [|tok toks]; [congruence|].
  destruct (String.eqb rn ""); eauto.
Qed.

Lemma fasta_step_length tl rn sq line tl' rn' sq' :
  fasta_step (tl, rn, sq) line = Ok (tl', rn', sq') →
  length tl ≤ length tl' ≤
  length tl + (if String.prefix ">" (strip line) then 1 else 0).
Proof.
  unfold fasta_step.
  destruct (String.prefix ">" (strip line)); cbn [andb].
  - destruct (split (strip line)) as [|tok toks];
      destruct (String.eqb rn ""); try discriminate;
      intros H;
      apply (f_equal (fun r => match r with
                               | Ok (a, _, _) => length a
                               | Raise _ => 0 end)) in H;
      cbv beta iota in H; rewrite ?length_app in H; cbn [length] in H; lia.
  - intros H.
    apply (f_equal (fun r => match r with
                             | Ok (a, _, _) => length a
                             | Raise _ => 0 end)) in H.
    cbv beta iota in H. lia.
Qed.

Lemma fasta_loop_ok lines :
  ∀ tl rn sq, ∃ tl' rn' sq',
    fasta_loop lines (tl, rn, sq) = Ok (tl', rn', sq') ∧
    length tl ≤ length tl' ≤
    length tl + length (List.filter (fun l => String.prefix ">" (strip l)) lines).
Proof.
  induction lines as [|line rest IH]; intros tl rn sq; cbn [fasta_loop].
  - exists tl, rn, sq. split; [reflexivity | cbn; lia].
  - destruct (fasta_step_ok (tl, rn, sq) line) as [[[tl1 rn1] sq1] Hstep].
    rewrite Hstep. cbn [bind].
    pose proof (fasta_step_length _ _ _ _ _ _ _ Hstep) as Hlen.
    destruct (IH tl1 rn1 sq1) as (tl' & rn' & sq' & Hloop & Hlen').
    exists tl', rn', sq'. split; [exact Hloop|].
    cbn [List.filter].
    destruct (String.prefix ">" (strip line)); cbn [length]; lia.
Qed.

(** [parse_fasta] never raises and never returns an empty list: an empty
    file gives one transcript with empty name and sequence, and there is at
    most one transcript more than there are header lines. *)
Theorem parse_fasta_nonempty (lines : list string) :
  (∃ ts, parse_fasta lines = Ok ts ∧
         1 ≤ length ts ≤
         1 + length (List.filter (fun l => String.prefix ">" (strip l)) lines)) ∧
  parse_fasta [] = Ok [Transcript.init "" ""].
Proof.
  split; [|reflexivity].
  unfold parse_fasta.
  destruct (fasta_loop_ok lines [] "" "") as (tl & rn & sq & -> & Hlen).
  cbn [bind]. eexists. split; [reflexivity|].
  rewrite length_app. cbn [length] in *. lia.
Qed.

Lemma header_step tl rn sq name trailer :
  no_space name = true → space_led trailer = true →
  fasta_step (tl, rn, sq) (String ">" (name ++ trailer))
  = if String.eqb rn "" then Ok (tl, name, sq)
    else Ok ((tl ++ [Transcript.init rn sq])%list, name, "").
Proof.
  intros Hns Htr. unfold fasta_step.
  rewrite (strip_cons ">" _ eq_refl), prefix_gt_cons.
  rewrite <- (rstrip_cons ">" _ eq_refl), split_rstrip, <- append_cons.
  rewrite split_token; [|discriminate| |exact Htr].
  - cbn [drop_str andb]. now destruct (String.eqb rn "").
  - unfold no_space in *. cbn [string_forallb]. rewrite Hns. reflexivity.
Qed.

Lemma body_loop body :
  Forall (fun line => String.prefix ">" (strip line) = false) body →
  ∀ rest tl rn sq,
    fasta_loop (body ++ rest) (tl, rn, sq)
    = fasta_loop rest (tl, rn, sq ++ fold_right String.append "" (map strip body)).
Proof.
  induction 1 as [|line body Hline _ IH]; intros rest tl rn sq.
  - cbn [app map fold_right]. now rewrite string_app_empty_r.
  - cbn [app map fold_right fasta_loop]. unfold fasta_step at 1.
    rewrite Hline. cbn [andb bind]. rewrite IH. now rewrite string_app_assoc.
Qed.

Lemma records_loop recs :
  Forall well_formed_record recs →
  ∀ tl rn sq, rn ≠ "" →
    (st <- fasta_loop (flat_map record_lines recs) (tl, rn, sq) ;;
     let '(a, b, c) := st in Ok (a ++ [Transcript.init b c])%list)
    = Ok (tl ++ Transcript.init rn sq :: map record_transcript recs)%list.
Proof.
  induction 1 as [|[[name trailer] body] recs (Hne & Hns & Htr & Hbody) _ IH];
    intros tl rn sq Hrn.
  - reflexivity.
  - cbn [flat_map record_lines app fasta_loop].
    rewrite (header_step tl rn sq name trailer Hns Htr).
    apply String.eqb_neq in Hrn. rewrite Hrn. cbn [bind].
    rewrite (body_loop body Hbody), append_nil.
    rewrite (IH _ name _ Hne). cbn [map record_transcript].
    now rewrite <- app_assoc.
Qed.

Lemma strip_concat_app (xs ys : list string) :
  fold_right String.append "" (map strip (xs ++ ys))
  = fold_right String.append "" (map strip xs)
    ++ fold_right String.append "" (map strip ys).
Proof.
  induction xs as [|x xs IH]; [reflexivity|].
  cbn [app map fold_right]. now rewrite IH, string_app_assoc.
Qed.

(** Text in front of the first header is kept: it opens the sequence of
    the first record. *)
Lemma parse_fasta_leading pre name trailer body recs :
  Forall (fun line => String.prefix ">" (strip line) = false) pre →
  well_formed_record (name, trailer, body) →
  Forall well_formed_record recs →
  parse_fasta (pre ++ flat_map record_lines ((name, trailer, body) :: recs))
  = Ok (Transcript.init name (fold_right String.append "" (map strip (pre ++ body)))
        :: map record_transcript recs).
Proof.
  intros Hpre (Hne & Hns & Htr & Hbody) Hrecs. unfold parse_fasta.
  rewrite (body_loop pre Hpre), append_nil.
  cbn [flat_map record_lines app fasta_loop].
  rewrite (header_step [] "" _ name trailer Hns Htr).
  cbn [String.eqb bind].
  rewrite (body_loop body Hbody), <- strip_concat_app.
  now rewrite (records_loop recs Hrecs [] name _ Hne).
Qed.

(** Round trip: a file made of well-formed records is read back as one
    transcript per record, in order, each with the name of its header and
    the stripped body lines joined. *)
Theorem parse_fasta_roundtrip (recs : list fasta_record) :
  recs ≠ [] → Forall well_formed_record recs →
  parse_fasta (flat_map record_lines recs) = Ok (map record_transcript recs).
Proof.
  destruct recs as [|[[name trailer] body] recs]; [congruence|].
  intros _ [Hr Hrecs]%Forall_cons.
  exact (parse_fasta_leading [] name trailer body recs
           (List.Forall_nil _) Hr Hrecs).
Qed.

Lemma parse_fasta_roundtrip_witness :
  parse_fasta [ ">seq1 first record"; "acgt"; " ACG "; ">seq2"; "tt" ]
  = Ok [Transcript.init "seq1" "acgtACG"; Transcript.init "seq2" "tt"].
Proof.
  apply (parse_fasta_roundtrip
           [ ("seq1", " first record", ["acgt"; " ACG "]);
             ("seq2", "", ["tt"]) ]).
  - discriminate.
  - repeat constructor; discriminate.
Defined.

(** Lines in front of the first header are not dropped: their text opens
    the sequence of the first record; and a file without any header gives a
    single transcript with an empty name. *)
Theorem parse_fasta_leading_text (pre : list string) :
  Forall (fun line => String.prefix ">" (strip line) = false) pre →
  (∀ name trailer body recs,
     well_formed_record (name, trailer, body) →
     Forall well_formed_record recs →
     parse_fasta (pre ++ flat_map record_lines ((name, trailer, body) :: recs))
     = Ok (Transcript.init name
             (fold_right String.append "" (map strip (pre ++ body)))
           :: map record_transcript recs)) ∧
  parse_fasta pre
  = Ok [Transcript.init "" (fold_right String.append "" (map strip pre))].
Proof.
  intros Hpre. split.
  - intros name trailer body recs. now apply parse_fasta_leading.
  - unfold parse_fasta.
    rewrite <- (app_nil_r pre), (body_loop pre Hpre), append_nil.
    now rewrite app_nil_r.
Qed.

Lemma parse_fasta_leading_text_witness :
  parse_fasta ["acg"; ">a"; "tt"] = Ok [Transcript.init "a" "acgtt"] ∧
  parse_fasta ["acg"; "tt"] = Ok [Transcript.init "" "acgtt"].
Proof.
  assert (Hpre : Forall (fun line => String.prefix ">" (strip line) = false)
                        ["acg"]) by (repeat constructor).
  assert (Hpre2 : Forall (fun line => String.prefix ">" (strip line) = false)
                         ["acg"; "tt"]) by (repeat constructor).
  split.
  - apply (proj1 (parse_fasta_leading_text ["acg"] Hpre) "a" "" ["tt"] []).
    + repeat split; try discriminate. repeat constructor.
    + constructor.
  - exact (proj2 (parse_fasta_leading_text ["acg"; "tt"] Hpre2)).
Defined.

Lemma records_then recs :
  Forall well_formed_record recs → recs ≠ [] →
  ∀ rest tl rn sq, rn ≠ "" →
    ∃ front name sq',
      map record_transcript recs = (front ++ [Transcript.init name sq'])%list ∧
      name ≠ "" ∧
      fasta_loop (flat_map record_lines recs ++ rest) (tl, rn, sq)
      = fasta_loop rest ((tl ++ Transcript.init rn sq :: front)%list, name, sq').
Proof.
  induction 1 as [|[[n trailer] body] recs (Hne & Hns & Htr & Hbody) Hrecs IH];
    [congruence|].
  intros _ rest tl rn sq Hrn.
  cbn [flat_map record_lines]. rewrite <- !app_assoc. cbn [app fasta_loop].
  rewrite (header_step tl rn sq n trailer Hns Htr).
  apply String.eqb_neq in Hrn. rewrite Hrn. cbn [bind].
  rewrite (body_loop body Hbody), append_nil.
  destruct recs as [|r recs'].
  - exists [], n, (fold_right String.append "" (map strip body)).
    split; [reflexivity|]. split; [exact Hne | reflexivity].
  - destruct (IH ltac:(discriminate) rest (tl ++ [Transcript.init rn sq])%list n
                (fold_right String.append "" (map strip body)) Hne)
      as (front & name & sq' & Hmap & Hname & Hloop).
    exists (Transcript.init n (fold_right String.append "" (map strip body)) :: front),
           name, sq'.
    split; [cbn [map record_transcript] in *; now rewrite Hmap|].
    split; [exact Hname|].
    rewrite Hloop, <- app_assoc. reflexivity.
Qed.

Lemma first_records recs :
  Forall well_formed_record recs → recs ≠ [] →
  ∀ rest,
    ∃ front name sq',
      map record_transcript recs = (front ++ [Transcript.init name sq'])%list ∧
      name ≠ "" ∧
      fasta_loop (flat_map record_lines recs ++ rest) ([], "", "")
      = fasta_loop rest (front, name, sq').
Proof.
  intros Hwf Hne rest.
  destruct recs as [|[[n trailer] body] recs]; [congruence|].
  apply Forall_cons in Hwf as [(Hn & Hns & Htr & Hbody) Hrecs].
  cbn [flat_map record_lines]. rewrite <- !app_assoc. cbn [app fasta_loop].
  rewrite (header_step [] "" "" n trailer Hns Htr). cbn [String.eqb bind].
  rewrite (body_loop body Hbody), append_nil.
  destruct recs as [|r recs'].
  - exists [], n, (fold_right String.append "" (map strip body)).
    split; [reflexivity|]. split; [exact Hn | reflexivity].
  - destruct (records_then (r :: recs') Hrecs ltac:(discriminate) rest [] n
                (fold_right String.append "" (map strip body)) Hn)
      as (front & name & sq' & Hmap & Hname & Hloop).
    exists (Transcript.init n (fold_right String.append "" (map strip body)) :: front),
           name, sq'.
    split; [cbn [map record_transcript] in *; now rewrite Hmap|].
    split; [exact Hname | exact Hloop].
Qed.

Lemma nameless_loop trailer body rest tl rn sq :
  space_led trailer = true →
  Forall (fun line => String.prefix ">" (strip line) = false) body →
  fasta_loop (record_lines ("", trailer, body) ++ rest) (tl, rn, sq)
  = fasta_loop rest
      (if String.eqb rn ""
       then (tl, "", sq ++ fold_right String.append "" (map strip body))
       else ((tl ++ [Transcript.init rn sq])%list, "",
             fold_right String.append "" (map strip body))).
Proof.
  intros Htr Hbody. cbn [record_lines app fasta_loop].
  rewrite (header_step tl rn sq "" trailer eq_refl Htr).
  destruct (String.eqb rn ""); cbn [bind];
    rewrite (body_loop body Hbody); [reflexivity | now rewrite append_nil].
Qed.

Lemma named_after_nameless name trailer body recs tl sq0 :
  well_formed_record (name, trailer, body) →
  Forall well_formed_record recs →
  (st <- fasta_loop (flat_map record_lines ((name, trailer, body) :: recs))
                    (tl, "", sq0) ;;
   let '(a, b, c) := st in Ok (a ++ [Transcript.init b c])%list)
  = Ok (tl ++ Transcript.init name
                (sq0 ++ fold_right String.append "" (map strip body))
           :: map record_transcript recs)%list.
Proof.
  intros (Hn & Hns & Htr & Hbody) Hrecs.
  cbn [flat_map record_lines app fasta_loop].
  rewrite (header_step tl "" sq0 name trailer Hns Htr). cbn [String.eqb bind].
  rewrite (body_loop body Hbody).
  exact (records_loop recs Hrecs tl name _ Hn).
Qed.

(** A record whose header carries no name (the header is [>] alone, or
    [>] followed by whitespace), wherever it stands in the file: when a
    named record follows, it gives no transcript of its own and its body is
    joined to the front of that record's sequence; when it is the last
    record of the file, it gives a transcript with an empty name that holds
    its body. *)
Theorem parse_fasta_nameless_record
    (recs1 : list fasta_record) (trailer : string) (body : list string) :
  Forall well_formed_record recs1 →
  space_led trailer = true →
  Forall (fun line => String.prefix ">" (strip line) = false) body →
  (∀ name2 trailer2 body2 recs2,
     well_formed_record (name2, trailer2, body2) →
     Forall well_formed_record recs2 →
     parse_fasta (flat_map record_lines recs1
                  ++ record_lines ("", trailer, body)
                  ++ flat_map record_lines ((name2, trailer2, body2) :: recs2))
     = Ok (map record_transcript recs1
           ++ Transcript.init name2
                (fold_right String.append "" (map strip (body ++ body2)))
              :: map record_transcript recs2)%list) ∧
  parse_fasta (flat_map record_lines recs1 ++ record_lines ("", trailer, body))
  = Ok (map record_transcript recs1
        ++ [Transcript.init "" (fold_right String.append "" (map strip body))])%list.
Proof.
  intros Hwf1 Htr Hbody.
  assert (Hstate : ∀ rest,
    fasta_loop (flat_map record_lines recs1
                ++ record_lines ("", trailer, body) ++ rest) ([], "", "")
    = fasta_loop rest (map record_transcript recs1, "",
                       fold_right String.append "" (map strip body))).
  { intros rest. destruct recs1 as [|r recs1'].
    - cbn [flat_map app map].
      rewrite (nameless_loop trailer body rest [] "" "" Htr Hbody).
      cbn [String.eqb]. now rewrite append_nil.
    - destruct (first_records (r :: recs1') Hwf1 ltac:(discriminate)
                  (record_lines ("", trailer, body) ++ rest))
        as (front & name & sq' & Hmap & Hname & ->).
      rewrite (nameless_loop trailer body rest front name sq' Htr Hbody).
      apply String.eqb_neq in Hname. now rewrite Hname, <- Hmap. }
  split.
  - intros name2 trailer2 body2 recs2 Hr2 Hwf2.
    unfold parse_fasta. rewrite Hstate, strip_concat_app.
    exact (named_after_nameless name2 trailer2 body2 recs2 _ _ Hr2 Hwf2).
  - unfold parse_fasta.
    rewrite <- (app_nil_r (record_lines ("", trailer, body))), Hstate.
    reflexivity.
Qed.

Lemma parse_fasta_nameless_record_witness :
  parse_fasta [">a"; "cc"; "> x"; "gg"; ">b"; "aa"]
  = Ok [Transcript.init "a" "cc"; Transcript.init "b" "ggaa"] ∧
  parse_fasta [">a"; "cc"; ">"; "gg"]
  = Ok [Transcript.init "a" "cc"; Transcript.init "" "gg"] ∧
  parse_fasta [">"; "gg"; ">b"; "aa"] = Ok [Transcript.init "b" "ggaa"].
Proof.
  assert (Ha : Forall well_formed_record [("a", "", ["cc"])])
    by (repeat constructor; discriminate).
  assert (Hgg : Forall (fun line => String.prefix ">" (strip line) = false) ["gg"])
    by (repeat constructor).
  assert (Hb : well_formed_record ("b", "", ["aa"]))
    by (repeat constructor; discriminate).
  split; [|split].
  - exact (proj1 (parse_fasta_nameless_record [("a", "", ["cc"])] " x" ["gg"]
                    Ha eq_refl Hgg) "b" "" ["aa"] [] Hb (List.Forall_nil _)).
  - exact (proj2 (parse_fasta_nameless_record [("a", "", ["cc"])] "" ["gg"]
                    Ha eq_refl Hgg)).
  - exact (proj1 (parse_fasta_nameless_record [] "" ["gg"]
                    (List.Forall_nil _) eq_refl Hgg) "b" "" ["aa"] [] Hb
                 (List.Forall_nil _)).
Defined.

Lemma upper_char_not_lower c : is_lower (upper_char c) = false.
Proof.
  unfold upper_char. destruct (is_lower c) eqn:E; [|exact E].
  unfold is_lower in *. apply andb_true_iff in E as [H1 H2].
  apply Nat.leb_le in H1, H2.
  rewrite nat_ascii_embedding by lia.
  apply andb_false_iff. left. apply Nat.leb_gt. lia.
Qed.

Lemma upper_no_lower s : no_lower (upper s) = true.
Proof.
  unfold no_lower. induction s as [|c s IH]; [reflexivity|].
  cbn [upper string_forallb]. now rewrite upper_char_not_lower, IH.
Qed.

Lemma upper_nonempty s : s ≠ "" → upper s ≠ "".
Proof. destruct s; [congruence | discriminate]. Qed.

Lemma parse_motif_txt_spec (lines : list string) :
  ∀ next_id,
    map Motif.seq (parse_motif_txt next_id lines)
    = map upper (List.filter (fun l => negb (String.eqb l "")) lines) ∧
    map Motif.oid (parse_motif_txt next_id lines)
    = seq next_id (length (parse_motif_txt next_id lines)) ∧
    Forall (fun m => Motif.seq m ≠ "" ∧ no_lower (Motif.seq m) = true ∧
                     Motif.length m = String.length (Motif.seq m) ∧
                     Motif.re_seq m = Motif.modular_motif (Motif.seq m))
           (parse_motif_txt next_id lines).
Proof.
  induction lines as [|line rest IH]; intros next_id; cbn [parse_motif_txt].
  - repeat split; constructor.
  - cbn [List.filter].
    destruct (String.eqb_spec line "") as [->|Hne]; cbn [negb]; [apply IH|].
    destruct (IH (S next_id)) as (Hseq & Hoid & Hall).
    cbn [map length seq Motif.seq Motif.oid Motif.init].
    split; [now rewrite Hseq|]. split; [now rewrite Hoid|].
    constructor; [|exact Hall].
    cbn [Motif.seq Motif.length Motif.re_seq Motif.init].
    split; [now apply upper_nonempty|]. split; [apply upper_no_lower|].
    split; reflexivity.
Qed.

(** Reading a motif file: one motif per line that is not blank after
    stripping, in file order, each a fresh object holding the stripped line
    in upper case; no motif is empty or contains a lowercase letter, and
    its length and match pattern are those of its sequence. *)
Theorem read_motifs_spec (lines : list string) :
  map Motif.seq (read_motifs lines)
  = map upper (List.filter (fun l => negb (String.eqb l "")) (map strip lines)) ∧
  NoDup (map Motif.oid (read_motifs lines)) ∧
  Forall (fun m => Motif.seq m ≠ "" ∧ no_lower (Motif.seq m) = true ∧
                   Motif.length m = String.length (Motif.seq m) ∧
                   Motif.re_seq m = Motif.modular_motif (Motif.seq m))
         (read_motifs lines).
Proof.
  unfold read_motifs.
  destruct (parse_motif_txt_spec (map strip lines) 0) as (Hseq & Hoid & Hall).
  split; [exact Hseq|]. split; [|exact Hall].
  rewrite Hoid. apply NoDup_seq.
Qed.

(** ** More on the search *)

Lemma match_atoms_width atoms :
  ∀ s w, Re.match_atoms atoms s = Some w →
         w = length atoms ∧ length atoms ≤ String.length s.
Proof.
  induction atoms as [|a atoms IH]; intros s w; cbn [Re.match_atoms].
  - intros [= <-]. cbn. lia.
  - destruct s as [|c s']; [discriminate|].
    destruct (Re.atom_matches a c); [|discriminate].
    destruct (Re.match_atoms atoms s') as [w'|] eqn:E; [|discriminate].
    cbn [fmap option_fmap option_map]. intros [= <-].
    destruct (IH s' w' E) as [-> Hle]. cbn [length String.length]. lia.
Qed.

Lemma drop_str_length i :
  ∀ s, String.length (drop_str i s) = String.length s - i.
Proof.
  induction i as [|i IH]; intros s; cbn [drop_str]; [lia|].
  destruct s as [|c s']; [reflexivity|]. cbn [String.length]. now rewrite IH.
Qed.

Lemma list_ascii_length s : length (list_ascii_of_string s) = String.length s.
Proof. induction s as [|c s IH]; [reflexivity|]. cbn. now rewrite IH. Qed.

Lemma filter_all_false {A} (f : A → bool) (l : list A) :
  (∀ x, In x l → f x = false) → List.filter f l = [].
Proof.
  induction l as [|x l IH]; intros H; [reflexivity|].
  cbn [List.filter]. rewrite (H x) by now left.
  apply IH. intros y Hy. apply H. now right.
Qed.

(** Every resolved unit consumes exactly one base: a match of a motif
    without metacharacters is as wide as the motif, so a start [s] leaves
    room for the whole motif before the end of the sequence. *)
Lemma plain_match_fits id seq text s :
  plain seq = true →
  covers (Motif.init id seq) text s →
  ∃ s0, 1 ≤ s0 ≤ s ∧ s < s0 + String.length seq ∧
        s0 + String.length seq ≤ String.length text + 1.
Proof.
  intros Hpl (atoms & s0 & Hp & Hs0 & Hm & Hr).
  cbn [Motif.re_seq Motif.length Motif.init] in *.
  rewrite (plain_compiles seq Hpl) in Hp. injection Hp as <-.
  unfold matches_at in Hm.
  destruct (Re.match_atoms _ _) as [w|] eqn:E; [|discriminate].
  apply match_atoms_width in E as [_ Hle].
  rewrite length_map, list_ascii_length, drop_str_length, upper_length in Hle.
  exists s0. lia.
Qed.

(** For an ASCII sequence and a motif without metacharacters, no stored
    position falls outside the sequence. *)
Theorem motif_positions_in_range (id : nat) (seq text : string) :
  plain seq = true → ascii_only text = true →
  ∃ ps, Transcript.motif_positions (Motif.init id seq) text = Ok ps ∧
        ∀ p, In p ps → 1 ≤ p ≤ String.length text.
Proof.
  intros Hpl _.
  destruct (motif_positions_ok (Motif.init id seq) text
              (plain_init_compiles id seq Hpl)) as [ps Hps].
  exists ps. split; [exact Hps|].
  intros p Hp. apply (motif_positions_covers _ _ _ p Hps) in Hp.
  destruct (plain_match_fits id seq text p Hpl Hp) as (s0 & H1 & H2 & H3). lia.
Qed.

Lemma motif_positions_in_range_witness :
  ∃ ps, Transcript.motif_positions (Motif.init 0 "GT") "acgtgt" = Ok ps ∧
        ∀ p, In p ps → 1 ≤ p ≤ 6.
Proof. exact (motif_positions_in_range 0 "GT" "acgtgt" eq_refl eq_refl). Defined.

(** A motif without metacharacters that is longer than an ASCII sequence
    is found nowhere, without any error. *)
Theorem motif_longer_than_sequence (id : nat) (seq text : string) :
  plain seq = true → ascii_only text = true →
  String.length text < String.length seq →
  Transcript.match_starts (Motif.init id seq) text = Ok [] ∧
  Transcript.motif_positions (Motif.init id seq) text = Ok [].
Proof.
  intros Hpl _ Hlen.
  assert (Hs : Transcript.match_starts (Motif.init id seq) text = Ok []).
  { rewrite (match_starts_spec (Motif.init id seq) text _
               (plain_compiles seq Hpl)).
    f_equal. apply filter_all_false. intros p _.
    unfold matches_at.
    destruct (Re.match_atoms _ _) as [w|] eqn:E; [|reflexivity].
    apply match_atoms_width in E as [_ Hle].
    rewrite length_map, list_ascii_length, drop_str_length, upper_length in Hle.
    lia. }
  split; [exact Hs|].
  unfold Transcript.motif_positions. rewrite Hs. reflexivity.
Qed.

Lemma motif_longer_than_sequence_witness :
  Transcript.match_starts (Motif.init 0 "ACGTN") "acg" = Ok [] ∧
  Transcript.motif_positions (Motif.init 0 "ACGTN") "acg" = Ok [].
Proof.
  apply (motif_longer_than_sequence 0 "ACGTN" "acg");
    [reflexivity | reflexivity | simpl; lia].
Defined.

Lemma table_keys_upper c v :
  dict_get c ambig_nucleotides = Some v → is_lower c = false.
Proof.
  intros H%dict_get_in. unfold ambig_nucleotides in H. cbn [In] in H.
  repeat (destruct H as [[= <- _]|H]; [reflexivity|]). destruct H.
Qed.

Lemma unit_atom_literal c :
  dict_get c ambig_nucleotides = None → unit_atom c = Re.Lit c.
Proof.
  intros H. unfold unit_atom, unit_of. rewrite H. cbn [Re.parse].
  destruct (Ascii.eqb c "["); [reflexivity|].
  destruct (Ascii.eqb c ")"); [reflexivity|].
  destruct (Re.is_meta c); reflexivity.
Qed.

Lemma unit_atom_lower c : is_lower c = true → unit_atom c = Re.Lit c.
Proof.
  intros H. apply unit_atom_literal.
  destruct (dict_get c ambig_nucleotides) as [v|] eqn:E; [|reflexivity].
  apply table_keys_upper in E. congruence.
Qed.

Lemma no_lower_false_inv s :
  no_lower s = false → ∃ c, In c (list_ascii_of_string s) ∧ is_lower c = true.
Proof.
  unfold no_lower. induction s as [|c s IH]; [discriminate|].
  cbn [string_forallb list_ascii_of_string].
  destruct (is_lower c) eqn:E; cbn [negb andb].
  - intros _. exists c. split; [now left | exact E].
  - intros H. destruct (IH H) as (c' & Hin & Hc'). exists c'. split; [now right | exact Hc'].
Qed.

Lemma no_lower_drop i : ∀ s, no_lower s = true → no_lower (drop_str i s) = true.
Proof.
  unfold no_lower. induction i as [|i IH]; intros s H; cbn [drop_str]; [exact H|].
  destruct s as [|c s']; [reflexivity|].
  cbn [string_forallb] in H. apply andb_true_iff in H as [_ H]. now apply IH.
Qed.

Lemma match_lower_none (l : list ascii) :
  (∃ c, In c l ∧ is_lower c = true) →
  ∀ s, no_lower s = true → Re.match_atoms (map unit_atom l) s = None.
Proof.
  induction l as [|a l IH]; intros (c & Hin & Hc) s Hs; [destruct Hin|].
  cbn [map Re.match_atoms]. destruct s as [|x s']; [reflexivity|].
  unfold no_lower in Hs. cbn [string_forallb] in Hs.
  apply andb_true_iff in Hs as [Hx Hs']. apply negb_true_iff in Hx.
  destruct Hin as [->|Hin].
  - rewrite (unit_atom_lower c Hc). cbn [Re.atom_matches].
    destruct (Ascii.eqb_spec c x) as [->|_]; [congruence | reflexivity].
  - destruct (Re.atom_matches (unit_atom a) x); [|reflexivity].
    rewrite (IH (ex_intro _ c (conj Hin Hc)) s' Hs'). reflexivity.
Qed.

(** A motif without regular-expression metacharacters that still
    contains a lowercase letter a-z is found nowhere: the sequence is
    upper-cased before the search, the motif is not (only [parse_motif_txt]
    upper-cases it). *)
Theorem lowercase_motif_never_matches (id : nat) (seq text : string) :
  plain seq = true → no_lower seq = false →
  Transcript.match_starts (Motif.init id seq) text = Ok [] ∧
  Transcript.motif_positions (Motif.init id seq) text = Ok [].
Proof.
  intros Hpl Hlow.
  assert (Hs : Transcript.match_starts (Motif.init id seq) text = Ok []).
  { rewrite (match_starts_spec (Motif.init id seq) text _
               (plain_compiles seq Hpl)).
    f_equal. apply filter_all_false. intros p _. unfold matches_at.
    rewrite (match_lower_none _ (no_lower_false_inv seq Hlow)); [reflexivity|].
    apply no_lower_drop, upper_no_lower. }
  split; [exact Hs|].
  unfold Transcript.motif_positions. rewrite Hs. reflexivity.
Qed.

Lemma lowercase_motif_never_matches_witness :
  Transcript.match_starts (Motif.init 0 "Acg") "ACGacg" = Ok [] ∧
  Transcript.motif_positions (Motif.init 0 "Acg") "ACGacg" = Ok [].
Proof.
  apply (lowercase_motif_never_matches 0 "Acg" "ACGacg"); reflexivity.
Defined.

Lemma upper_char_fixed c : is_lower c = false → upper_char c = c.
Proof. intros H. unfold upper_char. now rewrite H. Qed.

Lemma upper_idempotent s : upper (upper s) = upper s.
Proof.
  induction s as [|c s IH]; [reflexivity|].
  cbn [upper]. now rewrite (upper_char_fixed _ (upper_char_not_lower c)), IH.
Qed.

Lemma locate_case text1 text2 :
  upper text1 = upper text2 →
  ∀ ms d, Transcript.locate text1 ms d = Transcript.locate text2 ms d.
Proof.
  intros H. induction ms as [|m ms IH]; intros d; [reflexivity|].
  cbn [Transcript.locate].
  unfold Transcript.motif_positions, Transcript.match_starts.
  rewrite H. destruct (Re.re_compile _); cbn [bind]; [apply IH | reflexivity].
Qed.

(** The case of the sequence letters, which marks exons, has no effect on
    the motif search: two transcripts whose sequences are ASCII text and
    agree up to case get the same motif locations and the same index. *)
Theorem find_motifs_ignores_case (t1 t2 : Transcript.t) (ms : list Motif.t) :
  ascii_only (Transcript.sequence t1) = true →
  ascii_only (Transcript.sequence t2) = true →
  upper (Transcript.sequence t1) = upper (Transcript.sequence t2) →
  Transcript.find_motifs t1 ms = Transcript.find_motifs t2 ms.
Proof.
  intros _ _ H. unfold Transcript.find_motifs.
  rewrite (locate_case _ _ H).
  assert (Hlen : String.length (Transcript.sequence t1)
                 = String.length (Transcript.sequence t2)).
  { rewrite <- (upper_length (Transcript.sequence t1)), H. apply upper_length. }
  now rewrite Hlen.
Qed.

Lemma find_motifs_ignores_case_witness :
  Transcript.find_motifs (Transcript.init "a" "acGTac") [Motif.init 0 "GTA"]
  = Transcript.find_motifs (Transcript.init "b" "ACGTAC") [Motif.init 0 "GTA"].
Proof.
  apply (find_motifs_ignores_case (Transcript.init "a" "acGTac")
           (Transcript.init "b" "ACGTAC")); reflexivity.
Defined.

Lemma covered_by_covers m text p :
  covered_by m text p = true ↔ covers m text p.
Proof.
  unfold covered_by.
  destruct (Transcript.motif_positions m text) as [ps|e] eqn:E.
  - rewrite existsb_eqb_In. exact (motif_positions_covers m text ps p E).
  - split; [discriminate|].
    intros (atoms & s & Hp & _).
    destruct (motif_positions_ok m text (ex_intro _ atoms Hp)) as [ps Hps].
    congruence.
Qed.

(** With pairwise distinct motif objects (as a motif file gives), the
    labels at a position are the raw sequences of exactly the motifs with an
    occurrence covering it, one label per motif object, in the order of the
    motif list. *)
Theorem labels_exact (t : Transcript.t) (ms : list Motif.t)
    (ann : Transcript.annotation) (p : nat) :
  NoDup (map Motif.oid ms) →
  Transcript.find_motifs t ms = Ok ann →
  1 ≤ p ≤ String.length (Transcript.sequence t) →
  ∃ hits,
    Transcript.position_motif ann !! p = Some (map Motif.seq hits) ∧
    sublist hits ms ∧
    ∀ m, In m hits ↔ In m ms ∧ covers m (Transcript.sequence t) p.
Proof.
  intros Hnd Hfm Hp.
  exists (List.filter (fun m => covered_by m (Transcript.sequence t) p) ms).
  split; [now apply labels_in_motif_order|]. split.
  - clear. induction ms as [|m ms IH]; cbn [List.filter]; [constructor|].
    destruct (covered_by m _ p); now constructor.
  - intros m. rewrite filter_In, covered_by_covers. reflexivity.
Qed.

Lemma labels_exact_witness :
  ∃ ann hits,
    Transcript.find_motifs (Transcript.init "t" "ctagTAGc") (read_motifs ["tag"; "ygc"])
    = Ok ann ∧
    Transcript.position_motif ann !! 3 = Some (map Motif.seq hits) ∧
    sublist hits (read_motifs ["tag"; "ygc"]).
Proof.
  destruct (find_motifs_ok (Transcript.init "t" "ctagTAGc")
              (read_motifs ["tag"; "ygc"])) as [ann Hann].
  { repeat constructor; vm_compute; eauto. }
  destruct (labels_exact (Transcript.init "t" "ctagTAGc")
              (read_motifs ["tag"; "ygc"]) ann 3) as (hits & Hl & Hs & _).
  - apply (proj1 (proj2 (read_motifs_spec ["tag"; "ygc"]))).
  - exact Hann.
  - simpl. lia.
  - exists ann, hits. split; [exact Hann|]. split; [exact Hl | exact Hs].
Defined.

Lemma dict_set_keys d k v m locs :
  In (m, locs) (Transcript.dict_set d k v) →
  (∃ locs0, In (m, locs0) d) ∨ m = k.
Proof.
  induction d as [|[k' v'] d IH]; cbn [Transcript.dict_set].
  - intros [[= <- _]|[]]. now right.
  - destruct (Motif.oid k' =? Motif.oid k).
    + intros [[= <- _]|H]; left; [exists v'; now left | exists locs; now right].
    + intros [[= <- <-]|H]; [left; exists v'; now left|].
      destruct (IH H) as [[l0 Hl0]| ->]; [left; exists l0; now right | now right].
Qed.

Lemma locate_keys text :
  ∀ ms d d', Transcript.locate text ms d = Ok d' →
    ∀ m locs, In (m, locs) d' → (∃ locs0, In (m, locs0) d) ∨ In m ms.
Proof.
  induction ms as [|m0 ms IH]; intros d d'; cbn [Transcript.locate].
  - intros Hok m locs Hin.
    apply (f_equal (fun r => match r with Ok x => x | Raise _ => [] end)) in Hok.
    cbv beta iota in Hok. subst d'. left. now exists locs.
  - destruct (Transcript.motif_positions m0 text) as [ps|e];
      cbn [bind]; [|discriminate].
    intros Hloc m locs Hin.
    destruct (IH _ _ Hloc m locs Hin) as [[l0 Hl0]|Hm]; [|right; now right].
    apply dict_set_keys in Hl0 as [Hd| ->]; [now left | right; now left].
Qed.

Lemma assign_colors_keys (colors : list MotifsImage.color) :
  ∀ ms k (cp0 cp : gmap string MotifsImage.color),
    MotifsImage.assign_colors colors k ms cp0 = Ok cp →
    ∀ key, is_Some (cp0 !! key) ∨ (∃ m, In m ms ∧ Motif.seq m = key) →
           is_Some (cp !! key).
Proof.
  induction ms as [|m0 ms IH]; intros k cp0 cp; cbn [MotifsImage.assign_colors].
  - intros Hok key [H|(m & [] & _)].
    apply (f_equal (fun r => match r with Ok x => x | Raise _ => ∅ end)) in Hok.
    cbv beta iota in Hok. now subst cp.
  - destruct (colors !! k) as [c|]; [|discriminate].
    intros Hok key Hkey. apply (IH _ _ _ Hok).
    destruct (decide (Motif.seq m0 = key)) as [<-|Hne].
    + left. rewrite lookup_insert_eq. eauto.
    + destruct Hkey as [H|(m & [->|Hm] & Hs)].
      * left. now rewrite lookup_insert_ne.
      * congruence.
      * right. now exists m.
Qed.

(** Every label that the search puts in the index has a colour in an image
    built from the same motif list, so the colour lookup of [add_motifs]
    never misses. *)
Theorem label_has_colour (name : string) (ts : list Transcript.t)
    (ms : list Motif.t) (img : MotifsImage.t) (t : Transcript.t)
    (ann : Transcript.annotation) (p : nat) (labels : list string) (l : string) :
  MotifsImage.init name ts ms = Ok img →
  Transcript.find_motifs t ms = Ok ann →
  Transcript.position_motif ann !! p = Some labels →
  In l labels →
  is_Some (MotifsImage.color_pairs img !! l).
Proof.
  intros Himg Hfm Hlab Hl.
  destruct (init_fields name ts ms img Himg)
    as (_ & _ & _ & _ & _ & _ & _ & _ & _ & _ & _ & Hcp).
  apply (assign_colors_keys _ _ _ _ _ Hcp). right.
  unfold Transcript.find_motifs in Hfm.
  destruct (Transcript.locate (Transcript.sequence t) ms []) as [d|e] eqn:E;
    cbn [bind] in Hfm; [|discriminate].
  apply (f_equal (fun r => match r with
                           | Ok x => Transcript.position_motif x
                           | Raise _ => ∅ end)) in Hfm.
  cbv beta iota in Hfm. cbn [Transcript.position_motif] in Hfm.
  rewrite <- Hfm, build_index_lookup in Hlab.
  case_decide; [|discriminate]. injection Hlab as <-.
  unfold Transcript.labels_at in Hl. rewrite labels_fold_eq in Hl.
  cbn [app] in Hl. apply in_map_iff in Hl as ([m locs] & Hseq & Hin).
  apply filter_In in Hin as [Hin _]. cbn [fst] in Hseq.
  destruct (locate_keys _ _ _ _ E m locs Hin) as [[l0 []]|Hm].
  now exists m.
Qed.

Lemma label_has_colour_witness :
  ∃ img ann,
    MotifsImage.init "fig" [Transcript.init "t" "ctagTAGc"] (read_motifs ["tag"]) = Ok img ∧
    Transcript.find_motifs (Transcript.init "t" "ctagTAGc") (read_motifs ["tag"]) = Ok ann ∧
    is_Some (MotifsImage.color_pairs img !! "TAG").
Proof.
  destruct (init_ok "fig" [Transcript.init "t" "ctagTAGc"] (read_motifs ["tag"]))
    as [img Himg]; [discriminate | simpl; lia |].
  destruct (find_motifs_ok (Transcript.init "t" "ctagTAGc") (read_motifs ["tag"]))
    as [ann Hann].
  { repeat constructor; vm_compute; eauto. }
  exists img, ann. split; [exact Himg|]. split; [exact Hann|].
  apply (label_has_colour "fig" [Transcript.init "t" "ctagTAGc"]
           (read_motifs ["tag"]) img (Transcript.init "t" "ctagTAGc") ann 3
           ["TAG"] "TAG" Himg Hann).
  - assert (E : Transcript.find_motifs (Transcript.init "t" "ctagTAGc")
                  (read_motifs ["tag"]) = Ok ann) by exact Hann.
    vm_compute in E. injection E as <-. reflexivity.
  - now left.
Defined.

(** ** Where things are drawn *)

Lemma init_lists name ts ms img :
  MotifsImage.init name ts ms = Ok img →
  MotifsImage.transcripts img = ts ∧ MotifsImage.motifs img = ms.
Proof.
  unfold MotifsImage.init.
  destruct (MotifsImage.py_max ts) as [longest|e]; cbn [bind]; [|discriminate].
  destruct (MotifsImage.assign_colors MotifsImage.palette 0 ms ∅) as [cp|e];
    cbn [bind]; [|discriminate].
  intros Hok.
  apply (f_equal (fun r => match r with Ok i => Some i | Raise _ => None end)) in Hok.
  cbv beta iota in Hok. injection Hok as <-. split; reflexivity.
Qed.

Lemma seqlines_loop_strokes self :
  ∀ ts k j,
    strokes (seqlines_loop self k ts) !! j
    = (fun t =>
         ((MotifsImage.margins self,
           MotifsImage.title_len self + 150
           + MotifsImage.spacing self * Z.of_nat (k + j)),
          (MotifsImage.scale self * Z.of_nat (Transcript.length t)
           + MotifsImage.margins self,
           MotifsImage.title_len self + 150
           + MotifsImage.spacing self * Z.of_nat (k + j)))%Z) <$> ts !! j.
Proof.
  induction ts as [|t ts IH]; intros k j; [reflexivity|].
  cbn [seqlines_loop app strokes].
  destruct j as [|j]; cbn [lookup list_lookup fmap option_fmap option_map].
  - now rewrite Nat.add_0_r.
  - rewrite IH. now replace (S k + j) with (k + S j) by lia.
Qed.

(** Sequence lines: the line of the i-th transcript starts at the left
    margin, is [scale * length] long, lies [spacing] below the previous one,
    and stays inside the canvas: it ends at or before the right margin and
    at least 170 pixels above the bottom edge. *)
Theorem seqlines_within_canvas (name : string) (ts : list Transcript.t)
    (ms : list Motif.t) (img : MotifsImage.t) (i : nat) (t : Transcript.t) :
  MotifsImage.init name ts ms = Ok img →
  ts !! i = Some t →
  ∃ y,
    (strokes (add_seqlines img) !! i
     = Some ((50, y), (50 + 2 * Z.of_nat (Transcript.length t), y)) ∧
     y = MotifsImage.title_len img + 150 + 200 * Z.of_nat i ∧
     50 + 2 * Z.of_nat (Transcript.length t)
     ≤ MotifsImage.width img - MotifsImage.margins img ∧
     0 < y ≤ MotifsImage.height img - 170)%Z.
Proof.
  intros Himg Hi.
  destruct (init_fields name ts ms img Himg)
    as (Hsc & Hma & Hsp & _ & _ & Hti & _ & Hw & Hh & _).
  destruct (init_lists name ts ms img Himg) as [Hts _].
  eexists. split; [|split; [reflexivity|]].
  - unfold add_seqlines. cbn [strokes].
    rewrite seqlines_loop_strokes, Hts, Hi, Hsc, Hma, Hsp.
    cbn [fmap option_fmap option_map Nat.add]. do 3 f_equal; lia.
  - pose proof (lookup_lt_Some _ _ _ Hi) as Hlt.
    assert (Hin : In t ts)
      by (apply list_elem_of_In; eapply list_elem_of_lookup_2; exact Hi).
    pose proof (max_length_bound ts t Hin) as Hmax.
    rewrite Hw, Hma, Hh, Hti. lia.
Qed.

Lemma seqlines_within_canvas_witness :
  ∃ img y,
    MotifsImage.init "fig" [Transcript.init "a" "ACGTA"; Transcript.init "b" "AC"]
                     [Motif.init 0 "AA"] = Ok img ∧
    strokes (add_seqlines img) !! 1 = Some ((50, y), (54, y))%Z.
Proof.
  destruct (init_ok "fig" [Transcript.init "a" "ACGTA"; Transcript.init "b" "AC"]
              [Motif.init 0 "AA"]) as [img Himg]; [discriminate | simpl; lia |].
  destruct (seqlines_within_canvas "fig" _ _ img 1 (Transcript.init "b" "AC")
              Himg eq_refl) as (y & Hs & _).
  exists img, y. split; [exact Himg | exact Hs].
Defined.

(** The axis and its ticks: the axis runs from 2 pixels left of the left
    margin to 2 pixels right of the right margin, 75 pixels above the bottom
    edge; the five ticks are vertical, 25 pixels high, start on the axis and
    stand between the two margins. *)
Theorem ticks_stand_on_axis (name : string) (ts : list Transcript.t)
    (ms : list Motif.t) (img : MotifsImage.t) :
  MotifsImage.init name ts ms = Ok img →
  (strokes (add_xaxis img)
   = [ ((MotifsImage.margins img - 2, MotifsImage.height img - 75),
        (MotifsImage.width img - MotifsImage.margins img + 2,
         MotifsImage.height img - 75)) ] ∧
   length (strokes (MotifsImage.add_ticks img)) = 5%nat ∧
   ∀ x y x' y',
     In ((x, y), (x', y')) (strokes (MotifsImage.add_ticks img)) →
     x' = x ∧ y = MotifsImage.height img - 75 ∧
     y' = MotifsImage.height img - 100 ∧
     MotifsImage.margins img ≤ x
     ≤ MotifsImage.width img - MotifsImage.margins img)%Z.
Proof.
  intros Himg.
  destruct (init_fields name ts ms img Himg)
    as (_ & Hma & _ & _ & _ & _ & _ & Hw & _ & Hsp & Hlab & _).
  split; [reflexivity|].
  unfold MotifsImage.add_ticks, MotifsImage.tick, range.
  rewrite Hlab. cbn [length Nat.sub seq map concat app strokes].
  split; [reflexivity|].
  assert (Hdiv : (0 ≤ Z.of_nat (max_length ts) * 2 / 4
                  ∧ 4 * (Z.of_nat (max_length ts) * 2 / 4)
                    ≤ Z.of_nat (max_length ts) * 2)%Z).
  { split; [apply Z.div_pos; lia | apply Z.mul_div_le; lia]. }
  intros x y x' y' Hin. rewrite Hsp, Hma, Hw in *. cbn [In] in Hin.
  repeat (destruct Hin as [[= <- <- <- <-]|Hin]; [repeat split; lia|]).
  destruct Hin.
Qed.

Lemma ticks_stand_on_axis_witness :
  ∃ img,
    MotifsImage.init "fig" [Transcript.init "a" "ACGTA"] [] = Ok img ∧
    length (strokes (MotifsImage.add_ticks img)) = 5.
Proof.
  destruct (init_ok "fig" [Transcript.init "a" "ACGTA"] []) as [img Himg];
    [discriminate | simpl; lia |].
  exists img. split; [exact Himg|].
  exact (proj1 (proj2 (ticks_stand_on_axis "fig" _ _ img Himg))).
Defined.

Lemma draws_app (a b : list call) : draws (a ++ b) = (draws a ++ draws b)%list.
Proof.
  induction a as [|c a IH]; [reflexivity|].
  cbn [app draws]. destruct c; cbn [app]; now rewrite IH.
Qed.

Lemma exon_marks_strokes self i (es : list nat) (rest : list draw) :
  strokes
    (draws (concat (map (fun e =>
       [ ctx (move_to (MotifsImage.margins self + MotifsImage.scale self * Z.of_nat e)
                      (MotifsImage.title_len self + 130
                       + MotifsImage.spacing self * Z.of_nat i));
         ctx (line_to (MotifsImage.margins self + MotifsImage.scale self * Z.of_nat e)
                      (MotifsImage.title_len self + 150
                       + MotifsImage.spacing self * Z.of_nat i));
         ctx stroke ]%Z) es)) ++ rest)
  = (map (fun e =>
       ((MotifsImage.margins self + MotifsImage.scale self * Z.of_nat e,
         MotifsImage.title_len self + 130 + MotifsImage.spacing self * Z.of_nat i),
        (MotifsImage.margins self + MotifsImage.scale self * Z.of_nat e,
         MotifsImage.title_len self + 150 + MotifsImage.spacing self * Z.of_nat i))%Z)
       es ++ strokes rest)%list.
Proof.
  induction es as [|e es IH]; [reflexivity|].
  cbn [map concat app draws strokes]. now rewrite IH.
Qed.

Lemma exons_loop_strokes self :
  ∀ ts k seg,
    In seg (strokes (draws (exons_loop self k ts)))
    ↔ ∃ j t e,
        ts !! j = Some t ∧ In e (Transcript.exons t) ∧
        seg = ((MotifsImage.margins self + MotifsImage.scale self * Z.of_nat e,
                MotifsImage.title_len self + 130
                + MotifsImage.spacing self * Z.of_nat (k + j)),
               (MotifsImage.margins self + MotifsImage.scale self * Z.of_nat e,
                MotifsImage.title_len self + 150
                + MotifsImage.spacing self * Z.of_nat (k + j)))%Z.
Proof.
  induction ts as [|t ts IH]; intros k seg.
  - cbn. split; [tauto|]. intros (j & t & e & H & _). discriminate.
  - cbn [exons_loop]. unfold exon_marks.
    rewrite draws_app, exon_marks_strokes, in_app_iff, IH, in_map_iff.
    split.
    + intros [(e & <- & He)|(j & t' & e & Hj & He & ->)].
      * exists 0, t, e. rewrite Nat.add_0_r. now repeat split.
      * exists (S j), t', e. replace (k + S j) with (S k + j) by lia.
        now repeat split.
    + intros ([|j] & t' & e & Hj & He & ->).
      * left. cbn in Hj. injection Hj as <-. exists e.
        rewrite Nat.add_0_r. now split.
      * right. exists j, t', e. replace (S k + j) with (k + S j) by lia.
        now repeat split.
Qed.

(** Exon marks: the i-th transcript gets one vertical mark per exon
    position [e], at x = margins + scale * e, from 20 pixels above its
    sequence line down to the line; for transcripts built by the
    constructor every mark stands within the extent of the line. *)
Theorem exon_marks_on_line (name : string) (ts : list Transcript.t)
    (ms : list Motif.t) (img : MotifsImage.t) :
  MotifsImage.init name ts ms = Ok img →
  (∀ seg,
     In seg (strokes (draws (add_exons img)))
     ↔ ∃ i t e,
         ts !! i = Some t ∧ In e (Transcript.exons t) ∧
         seg = ((50 + 2 * Z.of_nat e,
                 MotifsImage.title_len img + 130 + 200 * Z.of_nat i),
                (50 + 2 * Z.of_nat e,
                 MotifsImage.title_len img + 150 + 200 * Z.of_nat i))%Z) ∧
  (∀ rn sq e,
     In e (Transcript.exons (Transcript.init rn sq)) →
     (50 < 50 + 2 * Z.of_nat e
      ≤ 50 + 2 * Z.of_nat (Transcript.length (Transcript.init rn sq)))%Z).
Proof.
  intros Himg.
  destruct (init_fields name ts ms img Himg) as (Hsc & Hma & Hsp & _).
  destruct (init_lists name ts ms img Himg) as [Hts _].
  split.
  - intros seg. unfold add_exons. cbn [draws strokes].
    rewrite exons_loop_strokes, Hts, Hsc, Hma, Hsp. cbn [Nat.add]. reflexivity.
  - intros rn sq e He.
    unfold Transcript.init, Re.finditer in He. cbn [Transcript.exons] in He.
    apply exon_scan_spec in He as (Hpos & c & Hg & _).
    apply get_some_lt in Hg.
    cbn [Transcript.length Transcript.init]. lia.
Qed.

Lemma exon_marks_on_line_witness :
  ∃ img,
    MotifsImage.init "fig" [Transcript.init "a" "acGT"] [] = Ok img ∧
    In ((56, MotifsImage.title_len img + 130 + 200 * 0),
        (56, MotifsImage.title_len img + 150 + 200 * 0))%Z
       (strokes (draws (add_exons img))).
Proof.
  destruct (init_ok "fig" [Transcript.init "a" "acGT"] []) as [img Himg];
    [discriminate | simpl; lia |].
  exists img. split; [exact Himg|].
  apply (proj1 (exon_marks_on_line "fig" _ _ img Himg)).
  exists 0, (Transcript.init "a" "acGT"), 3.
  split; [reflexivity|]. split; [|reflexivity].
  simpl. now left.
Defined.

(** ** The stages composed *)

(** [parse_fasta], [parse_motif_txt], [find_motifs] and the constructor of
    [MotifsImage] composed, the image name being given: reading the
    sequences never fails and gives at least one transcript; if no motif
    contains a regular-expression metacharacter, every transcript is
    annotated; the constructor, called on these transcripts and motifs with
    any name, returns an image when the file holds at most ten motifs and
    raises [IndexError] when it holds more. *)
Theorem stages_compose (name : string) (fasta motif_lines : list string) :
  Forall (fun line => plain (upper (strip line)) = true) motif_lines →
  ∃ ts,
    parse_fasta fasta = Ok ts ∧
    Forall (fun t => ∃ ann, Transcript.find_motifs t (read_motifs motif_lines) = Ok ann)
           ts ∧
    (length (read_motifs motif_lines) ≤ 10 →
     ∃ img, MotifsImage.init name ts (read_motifs motif_lines) = Ok img) ∧
    (10 < length (read_motifs motif_lines) →
     MotifsImage.init name ts (read_motifs motif_lines) = Raise IndexError).
Proof.
  intros Hpl.
  assert (Hc : Forall compiles (read_motifs motif_lines)).
  { apply motif_file_compiles. apply List.Forall_map. exact Hpl. }
  unfold parse_fasta.
  destruct (fasta_loop_ok fasta [] "" "") as (tl & rn & sq & -> & _).
  cbn [bind]. eexists. split; [reflexivity|].
  assert (Hne : (tl ++ [Transcript.init rn sq])%list ≠ [])
    by (destruct tl; discriminate).
  split; [|split].
  - apply Forall_forall. intros t _. now apply find_motifs_ok.
  - intros Hle. now apply init_ok.
  - intros Hgt. unfold MotifsImage.init.
    destruct (py_max_length _ Hne) as (longest & -> & _). cbn [bind].
    rewrite assign_colors_overflow; [reflexivity | cbn; lia | cbn; lia].
Qed.

Lemma stages_compose_witness :
  ∃ ts img,
    parse_fasta [">s1"; "acgtACGT"] = Ok ts ∧
    MotifsImage.init "fig" ts (read_motifs ["ygcy"; "AA"]) = Ok img.
Proof.
  destruct (stages_compose "fig" [">s1"; "acgtACGT"] ["ygcy"; "AA"])
    as (ts & Hts & _ & Hok & _).
  { repeat constructor. }
  destruct Hok as [img Himg]; [simpl; lia|].
  exists ts, img. split; [exact Hts | exact Himg].
Defined.

(** ** What a motif matches *)

Lemma class_matches (x : ascii) (letters : string) :
  existsb (Re.item_matches x) (map Re.CChar (list_ascii_of_string letters))
  = string_mem x letters.
Proof.
  induction letters as [|c letters IH]; [reflexivity|].
  cbn [list_ascii_of_string map existsb Re.item_matches string_mem].
  now rewrite IH, (Ascii.eqb_sym c x).
Qed.

Lemma table_atoms :
  Forall (fun e => unit_atom (fst e)
                   = Re.Class (map Re.CChar
                                 (list_ascii_of_string (class_letters (snd e)))))
         ambig_nucleotides.
Proof. repeat constructor. Qed.

Lemma unit_atom_allowed c x :
  Re.atom_matches (unit_atom c) x = string_mem x (allowed c).
Proof.
  unfold allowed.
  destruct (dict_get c ambig_nucleotides) as [cls|] eqn:E.
  - pose proof (proj1 (Forall_forall _ _) table_atoms (c, cls)) as H.
    cbn [fst snd] in H. rewrite H.
    + cbn [Re.atom_matches]. apply class_matches.
    + apply list_elem_of_In. now apply dict_get_in.
  - rewrite (unit_atom_literal c E).
    cbn [Re.atom_matches string_mem]. now rewrite orb_false_r, Ascii.eqb_sym.
Qed.

Lemma match_atoms_fits seq :
  ∀ text,
    match Re.match_atoms (map unit_atom (list_ascii_of_string seq)) text with
    | Some _ => true
    | None => false
    end = fits seq text.
Proof.
  induction seq as [|c seq IH]; intros text; [reflexivity|].
  cbn [list_ascii_of_string map Re.match_atoms fits].
  destruct text as [|x text']; [reflexivity|].
  rewrite unit_atom_allowed.
  destruct (string_mem x (allowed c)); cbn [andb]; [|reflexivity].
  rewrite <- IH. now destruct (Re.match_atoms _ text').
Qed.

(** The search seen base by base: a motif without metacharacters is found
    at a position exactly when each of its characters accepts the
    upper-cased base facing it -- one of the letters the table lists for
    that character, or the character itself when it is not in the table. *)
Theorem match_is_positionwise (id : nat) (motif_seq text : string) :
  plain motif_seq = true →
  Transcript.match_starts (Motif.init id motif_seq) text
  = Ok (List.filter (fun p => fits motif_seq (drop_str (p - 1) (upper text)))
          (seq 1 (S (String.length text)))).
Proof.
  intros Hpl.
  rewrite (match_starts_spec (Motif.init id motif_seq) text _
             (plain_compiles motif_seq Hpl)).
  f_equal. apply filter_ext_seq. intros p. unfold matches_at.
  apply match_atoms_fits.
Qed.

Lemma match_is_positionwise_witness :
  Transcript.match_starts (Motif.init 0 "YGX") "acgxtgX"
  = Ok (List.filter (fun p => fits "YGX" (drop_str (p - 1) "ACGXTGX"))
          (seq 1 8)).
Proof. exact (match_is_positionwise 0 "YGX" "acgxtgX" eq_refl). Defined.

Lemma t_to_u_unit c :
  unit_of (if Ascii.eqb c "T" then "U"%char else c) = unit_of c.
Proof. destruct (Ascii.eqb_spec c "T") as [->|_]; reflexivity. Qed.

Lemma t_to_u_length s : String.length (t_to_u s) = String.length s.
Proof. induction s as [|c s IH]; [reflexivity|]. cbn. now rewrite IH. Qed.

(** T and U are interchangeable in a motif: writing U for every T changes
    neither the match pattern nor the length, hence none of the positions
    found in any sequence. *)
Theorem motif_T_and_U_interchangeable (id id' : nat) (motif_seq text : string) :
  Motif.re_seq (Motif.init id (t_to_u motif_seq))
  = Motif.re_seq (Motif.init id' motif_seq) ∧
  Motif.length (Motif.init id (t_to_u motif_seq))
  = Motif.length (Motif.init id' motif_seq) ∧
  Transcript.motif_positions (Motif.init id (t_to_u motif_seq)) text
  = Transcript.motif_positions (Motif.init id' motif_seq) text.
Proof.
  assert (Hre : Motif.modular_motif (t_to_u motif_seq)
                = Motif.modular_motif motif_seq).
  { induction motif_seq as [|c s IH]; [reflexivity|].
    cbn [t_to_u]. now rewrite !modular_motif_cons, t_to_u_unit, IH. }
  cbn [Motif.re_seq Motif.length Motif.init].
  split; [exact Hre|]. split; [apply t_to_u_length|].
  unfold Transcript.motif_positions, Transcript.match_starts.
  cbn [Motif.re_seq Motif.length Motif.init].
  now rewrite Hre, t_to_u_length.
Qed.

Lemma builds_transcript (t : Transcript.t) :
  (∃ rn sq, t = Transcript.init rn sq) →
  Transcript.length t = String.length (Transcript.sequence t) ∧
  StronglySorted lt (Transcript.exons t) ∧
  ∀ e, In e (Transcript.exons t) → 1 ≤ e ≤ Transcript.length t.
Proof.
  intros (rn & sq & ->).
  unfold Transcript.init, Re.finditer.
  cbn [Transcript.length Transcript.sequence Transcript.exons].
  split; [reflexivity|]. split; [apply exon_scan_sorted|].
  intros e (Hpos & c & Hg & _)%exon_scan_spec.
  apply get_some_lt in Hg. lia.
Qed.

Lemma fasta_step_built st line st' :
  fasta_step st line = Ok st' →
  Forall (fun t => ∃ rn sq, t = Transcript.init rn sq) (fst (fst st)) →
  Forall (fun t => ∃ rn sq, t = Transcript.init rn sq) (fst (fst st')).
Proof.
  destruct st as [[tl rn] sq]. unfold fasta_step.
  destruct (String.prefix ">" (strip line)); cbn [andb].
  - destruct (split (strip line)) as [|tok toks];
      destruct (String.eqb rn ""); try discriminate;
      intros H Hall;
      apply (f_equal (fun r => match r with
                               | Ok x => fst (fst x)
                               | Raise _ => [] end)) in H;
      cbv beta iota in H; cbn [fst] in H, Hall; rewrite <- H;
      try exact Hall.
    apply Forall_app. split; [exact Hall|]. repeat constructor. eauto.
  - intros H Hall.
    apply (f_equal (fun r => match r with
                             | Ok x => fst (fst x)
                             | Raise _ => [] end)) in H.
    cbv beta iota in H. cbn [fst] in H, Hall. now rewrite <- H.
Qed.

Lemma fasta_loop_built lines :
  ∀ st st',
    fasta_loop lines st = Ok st' →
    Forall (fun t => ∃ rn sq, t = Transcript.init rn sq) (fst (fst st)) →
    Forall (fun t => ∃ rn sq, t = Transcript.init rn sq) (fst (fst st')).
Proof.
  induction lines as [|line rest IH]; intros st st'; cbn [fasta_loop].
  - intros H Hall.
    apply (f_equal (fun r => match r with Ok x => Some x | Raise _ => None end)) in H.
    cbv beta iota in H. injection H as <-. exact Hall.
  - destruct (fasta_step st line) as [st1|e] eqn:E; cbn [bind]; [|discriminate].
    intros H Hall. apply (IH _ _ H). exact (fasta_step_built _ _ _ E Hall).
Qed.

(** Every transcript that [parse_fasta] returns is consistent: its length
    is the number of characters of its sequence, and its exon positions are
    strictly increasing and lie between 1 and that length. *)
Theorem parse_fasta_transcripts_consistent (lines : list string)
    (ts : list Transcript.t) :
  parse_fasta lines = Ok ts →
  Forall (fun t =>
            Transcript.length t = String.length (Transcript.sequence t) ∧
            StronglySorted lt (Transcript.exons t) ∧
            ∀ e, In e (Transcript.exons t) → 1 ≤ e ≤ Transcript.length t) ts.
Proof.
  unfold parse_fasta.
  destruct (fasta_loop lines ([], "", "")) as [[[tl rn] sq]|e] eqn:E;
    cbn [bind]; [|discriminate].
  intros H.
  apply (f_equal (fun r => match r with Ok x => x | Raise _ => [] end)) in H.
  cbv beta iota in H. subst ts.
  pose proof (fasta_loop_built lines _ _ E (List.Forall_nil _)) as Hall.
  cbn [fst] in Hall.
  apply Forall_app. split.
  - eapply Forall_impl; [exact Hall|]. intros t Ht. now apply builds_transcript.
  - constructor; [|constructor]. apply builds_transcript. eauto.
Qed.

Lemma parse_fasta_transcripts_consistent_witness :
  Forall (fun t =>
            Transcript.length t = String.length (Transcript.sequence t) ∧
            StronglySorted lt (Transcript.exons t) ∧
            ∀ e, In e (Transcript.exons t) → 1 ≤ e ≤ Transcript.length t)
         [Transcript.init "s1" "acGT"; Transcript.init "s2" "TT"].
Proof.
  exact (parse_fasta_transcripts_consistent [">s1"; "acGT"; ">s2"; "TT"] _ eq_refl).
Defined.

(** ** The search engine on a motif list *)

Lemma dict_set_cases d k v k' v' :
  In (k', v') (Transcript.dict_set d k v) →
  In (k', v') d ∨
  (Motif.oid k' = Motif.oid k ∧ v' = v ∧ (k' = k ∨ ∃ v0, In (k', v0) d)).
Proof.
  induction d as [|[k0 v0] d IH]; cbn [Transcript.dict_set].
  - intros [[= <- <-]|[]]. right. repeat split. now left.
  - destruct (Nat.eqb_spec (Motif.oid k0) (Motif.oid k)) as [E|_].
    + intros [[= <- <-]|H].
      * right. repeat split; [exact E|]. right. exists v0. now left.
      * left. now right.
    + intros [[= <- <-]|H]; [left; now left|].
      destruct (IH H) as [H'|(Ho & Hv & [Hk|[v1 Hv1]])].
      * left. now right.
      * right. repeat split; [exact Ho | exact Hv | now left].
      * right. repeat split; [exact Ho | exact Hv |]. right. exists v1. now right.
Qed.

Lemma dict_set_key_kept d k v k' v' :
  In (k', v') d → ∃ v'', In (k', v'') (Transcript.dict_set d k v).
Proof.
  induction d as [|[k0 v0] d IH]; [intros []|].
  cbn [Transcript.dict_set]. intros [[= -> ->]|H].
  - destruct (Motif.oid k' =? Motif.oid k); eexists; now left.
  - destruct (Motif.oid k0 =? Motif.oid k).
    + exists v'. now right.
    + destruct (IH H) as [v'' Hv'']. exists v''. now right.
Qed.

Lemma dict_set_has d k v :
  ∃ k', Motif.oid k' = Motif.oid k ∧ In (k', v) (Transcript.dict_set d k v) ∧
        (k' = k ∨ ∃ v0, In (k', v0) d).
Proof.
  induction d as [|[k0 v0] d IH]; cbn [Transcript.dict_set].
  - exists k. repeat split; now left.
  - destruct (Nat.eqb_spec (Motif.oid k0) (Motif.oid k)) as [E|_].
    + exists k0. repeat split; [exact E | now left |]. right. exists v0. now left.
    + destruct IH as (k' & Ho & Hin & [->|[v1 Hv1]]).
      * exists k. repeat split; [now right | now left].
      * exists k'. repeat split; [exact Ho | now right |]. right. exists v1. now right.
Qed.

(** The first loop of [find_motifs] stores, for every motif of the list, an
    entry under that very object, and every entry holds the positions of its
    key. *)
Lemma locate_holds text (U : list Motif.t) :
  same_objects U →
  ∀ ms d d',
    (∀ m, In m ms → In m U) →
    (∀ k v, In (k, v) d → In k U ∧ Transcript.motif_positions k text = Ok v) →
    Transcript.locate text ms d = Ok d' →
    (∀ k v, In (k, v) d' → In k U ∧ Transcript.motif_positions k text = Ok v) ∧
    (∀ m, In m ms ∨ (∃ v, In (m, v) d) → ∃ v, In (m, v) d').
Proof.
  intros HU. induction ms as [|m0 ms IH]; intros d d' Hincl Hinv;
    cbn [Transcript.locate].
  - intros Hok.
    apply (f_equal (fun r => match r with Ok x => x | Raise _ => [] end)) in Hok.
    cbv beta iota in Hok. subst d'. split; [exact Hinv|].
    intros m [[]|H]. exact H.
  - destruct (Transcript.motif_positions m0 text) as [ps0|e] eqn:E;
      cbn [bind]; [|discriminate].
    intros Hloc.
    assert (Hm0 : In m0 U) by (apply Hincl; now left).
    assert (Hinv1 : ∀ k v, In (k, v) (Transcript.dict_set d m0 ps0) →
                           In k U ∧ Transcript.motif_positions k text = Ok v).
    { intros k v [H|(Ho & -> & Hk)]%dict_set_cases; [now apply Hinv|].
      assert (HkU : In k U).
      { destruct Hk as [->|[v0 Hv0]]; [exact Hm0 | exact (proj1 (Hinv k v0 Hv0))]. }
      rewrite (HU k m0 HkU Hm0 Ho). split; [exact Hm0 | exact E]. }
    destruct (IH _ _ (fun m Hm => Hincl m (or_intror Hm)) Hinv1 Hloc)
      as [Hinv' Hkeys].
    split; [exact Hinv'|].
    intros m [[<-|Hm]|[v Hv]].
    + apply Hkeys. right.
      destruct (dict_set_has d m0 ps0) as (k' & Ho & Hin & Hk).
      assert (Hk'U : In k' U) by exact (proj1 (Hinv1 k' ps0 Hin)).
      rewrite (HU k' m0 Hk'U Hm0 Ho) in Hin. now exists ps0.
    + apply Hkeys. now left.
    + apply Hkeys. right. exact (dict_set_key_kept d m0 ps0 m v Hv).
Qed.

Lemma label_of_entry p (d : Transcript.locations) m v :
  In (m, v) d → In p v → In (Motif.seq m) (Transcript.labels_at p d).
Proof.
  intros Hin Hp. unfold Transcript.labels_at. rewrite labels_fold_eq. cbn [app].
  apply in_map_iff. exists (m, v). split; [reflexivity|].
  apply filter_In. split; [exact Hin|]. cbn [snd]. now apply existsb_eqb_In.
Qed.

(** C1: for every sequence and every list of motifs whose match patterns
    lie in the modelled fragment (every motif without regular-expression
    metacharacters does), [find_motifs] returns, and for every motif of the
    list: the starts the search reports are exactly the 1-based positions,
    in increasing order, at which the match pattern matches the upper-cased
    sequence, overlapping ones included; [motif_locations] holds, under that
    motif, the ranges of all these starts; and every such start that lies in
    the sequence carries the motif's label in [position_motif].  Motif AA in
    AAAA is found at 1, 2 and 3. *)
Theorem C1_every_start_reported :
  (∀ (t : Transcript.t) (ms : list Motif.t),
     Forall compiles ms → same_objects ms →
     ∃ ann,
       Transcript.find_motifs t ms = Ok ann ∧
       ∀ m atoms,
         In m ms →
         Re.parse (Motif.re_seq m) false None = Some atoms →
         let starts :=
           List.filter
             (fun p => matches_at atoms (upper (Transcript.sequence t)) (p - 1))
             (seq 1 (S (String.length (Transcript.sequence t)))) in
         Transcript.match_starts m (Transcript.sequence t) = Ok starts ∧
         In (m, concat (map (fun s => range s (s + Motif.length m)) starts))
            (Transcript.motif_locations ann) ∧
         ∀ s, In s starts → 1 ≤ Motif.length m →
              s ≤ String.length (Transcript.sequence t) →
              ∃ labels, Transcript.position_motif ann !! s = Some labels ∧
                        In (Motif.seq m) labels) ∧
  (∀ (motif : Motif.t) (text : string) (atoms : list Re.atom),
     Re.parse (Motif.re_seq motif) false None = Some atoms →
     Transcript.match_starts motif text
     = Ok (List.filter (fun p => matches_at atoms (upper text) (p - 1))
             (seq 1 (S (String.length text))))) ∧
  (∀ id motif_seq, plain motif_seq = true →
     Re.parse (Motif.re_seq (Motif.init id motif_seq)) false None
     = Some (map unit_atom (list_ascii_of_string motif_seq))) ∧
  Transcript.match_starts (Motif.init 0 "AA") "AAAA" = Ok [1; 2; 3] ∧
  Transcript.motif_positions (Motif.init 0 "AA") "AAAA" = Ok [1; 2; 2; 3; 3; 4] ∧
  ∃ ann,
    Transcript.find_motifs (Transcript.init "t" "AAAA") [Motif.init 0 "AA"] = Ok ann ∧
    Transcript.motif_locations ann = [(Motif.init 0 "AA", [1; 2; 2; 3; 3; 4])] ∧
    map (fun p => Transcript.position_motif ann !! p) [1; 2; 3; 4]
    = [Some ["AA"]; Some ["AA"]; Some ["AA"]; Some ["AA"]].
Proof.
  split; [|split; [exact match_starts_spec|]].
  - intros t ms Hc HU.
    destruct (find_motifs_ok t ms Hc) as [ann Hann].
    exists ann. split; [exact Hann|].
    unfold Transcript.find_motifs in Hann.
    destruct (Transcript.locate (Transcript.sequence t) ms []) as [d|e] eqn:E;
      cbn [bind] in Hann; [|discriminate].
    apply (f_equal (fun r => match r with Ok x => Some x | Raise _ => None end)) in Hann.
    cbv beta iota in Hann. injection Hann as <-.
    cbn [Transcript.motif_locations Transcript.position_motif].
    destruct (locate_holds (Transcript.sequence t) ms HU ms [] d
                (fun m H => H) (fun k v (H : In (k, v) []) => match H with end) E)
      as [Hinv Hkeys].
    intros m atoms Hm Hp. cbn zeta.
    pose proof (match_starts_spec m (Transcript.sequence t) atoms Hp) as Hs.
    split; [exact Hs|].
    destruct (Hkeys m (or_introl Hm)) as [v Hv].
    destruct (Hinv m v Hv) as [_ Hpos].
    unfold Transcript.motif_positions in Hpos. rewrite Hs in Hpos.
    cbn [bind] in Hpos.
    apply (f_equal (fun r => match r with Ok x => x | Raise _ => [] end)) in Hpos.
    cbv beta iota in Hpos.
    split; [now rewrite Hpos|].
    intros s Hs_in Hlen Hle.
    assert (H1 : 1 ≤ s).
    { apply (proj1 (filter_In _ s _)) in Hs_in. destruct Hs_in as [Hs_in _].
      apply in_seq in Hs_in. lia. }
    exists (Transcript.labels_at s d). split.
    + rewrite build_index_lookup, decide_True by lia. reflexivity.
    + apply (label_of_entry s d m v Hv). rewrite <- Hpos.
      apply in_concat_ranges. exists s. split; [exact Hs_in | lia].
  - split; [intros id motif_seq; apply plain_compiles|].
    split; [reflexivity|]. split; [reflexivity|].
    eexists. split; [reflexivity|]. split; reflexivity.
Qed.

Lemma C1_witness :
  ∃ ann,
    Transcript.find_motifs (Transcript.init "t" "ctaTAa")
                           [Motif.init 7 "YA"; Motif.init 8 "TAT"] = Ok ann ∧
    In (Motif.init 7 "YA", [2; 3; 4; 5]) (Transcript.motif_locations ann) ∧
    Transcript.match_starts (Motif.init 7 "YA") "ctaTAa" = Ok [2; 4].
Proof.
  destruct (proj1 C1_every_start_reported (Transcript.init "t" "ctaTAa")
              [Motif.init 7 "YA"; Motif.init 8 "TAT"])
    as (ann & Hann & Hall).
  - repeat constructor; vm_compute; eauto.
  - intros m m' [<-|[<-|[]]] [<-|[<-|[]]] Ho;
      first [reflexivity | discriminate Ho].
  - exists ann. split; [exact Hann|].
    destruct (Hall (Motif.init 7 "YA")
                [Re.Class [Re.CChar "Y"; Re.CChar "T"; Re.CChar "C"; Re.CChar "U"];
                 Re.Lit "A"] (or_introl eq_refl) eq_refl) as (Hs & Hin & _).
    split; [exact Hin | exact Hs].
Defined.

(** ** Characters outside the table *)



